(** * pytermgui: the terminal substrate and the regex highlighter

    A shallow embedding of [pytermgui/terminal.py] and
    [pytermgui/highlighters.py], followed by the properties proved about
    them.

    Conventions of the model.
    - A Python [str] is a [string]; a character is a code point below 256
      and the Python built-ins used by the sources ([strip], [lower],
      [split], [int], ...) are given on those code points.
    - A time stamp or a duration (a Python [float] of seconds) is an exact
      rational of [Q]: rounding of the floating point subtraction is not
      modelled, the order and the sign of the values are.
    - Mutable objects live in a [World]: the process environment, the wall
      clock and the keyboard are oracles, the stream calls are logged in
      order, and [Recorder] objects sit in a store and are referred to by
      their location, so that the terminal and its caller share them.
    - The names imported from [pytermgui.regex] ([strip_ansi],
      [real_length], [RE_MARKUP]) are parameters of the definitions which
      use them. *)

From Stdlib Require Import ZArith QArith String Ascii List Bool Lia DecimalString.
From stdpp Require Import base option gmap strings list.

Local Open Scope string_scope.

(** ** Python built-ins *)

Module Py.

Inductive exn : Type :=
| KeyError (key : string)
| NameError
| IndexError
| ValueError (msg : string)
| RuntimeError (msg : string).

Inductive result (A : Type) : Type :=
| Ok (a : A)
| Raise (e : exn).
Arguments Ok {A} a.
Arguments Raise {A} e.

Definition code (c : ascii) : N := N_of_ascii c.

Definition between (lo hi : N) (c : ascii) : bool :=
  ((lo <=? code c) && (code c <=? hi))%N.

(** [str.isspace] on one character. *)
Definition isspace (c : ascii) : bool :=
  between 9 13 c || between 28 32 c || (code c =? 133)%N || (code c =? 160)%N.

(** [str.isdecimal] on one character. *)
Definition isdecimal (c : ascii) : bool := between 48 57 c.

Definition isupper (c : ascii) : bool :=
  between 65 90 c || between 192 214 c || between 216 222 c.

Definition lower_char (c : ascii) : ascii :=
  if isupper c then ascii_of_N (code c + 32) else c.

(** [s.lower()] *)
Fixpoint lower (s : string) : string :=
  match s with
  | EmptyString => EmptyString
  | String c s' => String (lower_char c) (lower s')
  end.

Fixpoint lstrip_by (drop : ascii -> bool) (s : string) : string :=
  match s with
  | EmptyString => EmptyString
  | String c s' => if drop c then lstrip_by drop s' else s
  end.

Definition rstrip_by (drop : ascii -> bool) (s : string) : string :=
  String.rev (lstrip_by drop (String.rev s)).

(** [s.strip()] *)
Definition strip (s : string) : string := rstrip_by isspace (lstrip_by isspace s).

Fixpoint mem_char (c : ascii) (chars : string) : bool :=
  match chars with
  | EmptyString => false
  | String d chars' => Ascii.eqb c d || mem_char c chars'
  end.

(** [s.rstrip(chars)] *)
Definition rstrip (chars : string) (s : string) : string :=
  rstrip_by (fun c => mem_char c chars) s.

(** [sub in s] *)
Fixpoint contains (sub s : string) : bool :=
  String.prefix sub s ||
  match s with
  | EmptyString => false
  | String _ s' => contains sub s'
  end.

(** [s.split(sep)] for a separator that is not empty: [skip] counts the
    characters of a separator just found which are still to be passed. *)
Fixpoint split_go (sep : string) (skip : nat) (cur : string) (s : string)
  : list string :=
  match s with
  | EmptyString => [cur]
  | String c s' =>
      match skip with
      | S k => split_go sep k cur s'
      | O =>
          if String.prefix sep s
          then cur :: split_go sep (String.length sep - 1) EmptyString s'
          else split_go sep 0 (cur ++ String c EmptyString) s'
      end
  end.

Definition split (sep : string) (s : string) : list string :=
  split_go sep 0 EmptyString s.

(** [s.replace(old, new)] for [old] not empty. *)
Fixpoint replace_go (old new : string) (skip : nat) (s : string) : string :=
  match s with
  | EmptyString => EmptyString
  | String c s' =>
      match skip with
      | S k => replace_go old new k s'
      | O =>
          if String.prefix old s
          then new ++ replace_go old new (String.length old - 1) s'
          else String c (replace_go old new 0 s')
      end
  end.

Definition replace (old new : string) (s : string) : string :=
  replace_go old new 0 s.

(** [s.count(sub)] for [sub] not empty. *)
Fixpoint count_go (sub : string) (skip : nat) (s : string) : Z :=
  match s with
  | EmptyString => 0
  | String c s' =>
      match skip with
      | S k => count_go sub k s'
      | O =>
          if String.prefix sub s
          then (1 + count_go sub (String.length sub - 1) s')%Z
          else count_go sub 0 s'
      end
  end.

Definition count (sub : string) (s : string) : Z := count_go sub 0 s.

(** [sep.join(items)] *)
Definition join (sep : string) (items : list string) : string :=
  String.concat sep items.

(** [s[start:-back]] for literal bounds [start >= 0] and [back > 0]. *)
Definition slice (start back : nat) (s : string) : string :=
  substring start (String.length s - back - start) s.

(** Line boundaries of [str.splitlines]. *)
Definition islinebreak (c : ascii) : bool :=
  between 10 13 c || between 28 30 c || (code c =? 133)%N.

(** [s.splitlines()]: a carriage return directly followed by a line feed
    is one boundary, and a boundary at the very end opens no last line. *)
Fixpoint splitlines_go (cur : string) (after_cr : bool) (s : string)
  : list string :=
  match s with
  | EmptyString => if String.eqb cur EmptyString then [] else [cur]
  | String c s' =>
      if after_cr && (code c =? 10)%N then splitlines_go cur false s'
      else if islinebreak c
      then cur :: splitlines_go EmptyString (code c =? 13)%N s'
      else splitlines_go (cur ++ String c EmptyString) false s'
  end.

Definition splitlines (s : string) : list string :=
  splitlines_go EmptyString false s.

(** [str(n)] for an [int]. *)
Definition str_of_int (n : Z) : string := NilZero.string_of_int (Z.to_int n).

Definition digit_value (c : ascii) : Z := Z.of_N (code c - 48).

(** The digits of a decimal literal: single underscores may separate
    digits, [seen] tells whether the previous character was a digit. *)
Fixpoint int_digits (acc : Z) (seen : bool) (s : string) : option Z :=
  match s with
  | EmptyString => if seen then Some acc else None
  | String c s' =>
      if isdecimal c then int_digits (10 * acc + digit_value c) true s'
      else if Ascii.eqb c "_" && seen then int_digits acc false s'
      else None
  end.

(** [int(s)]: surrounding white space, an optional sign, decimal digits.
    The message of the exception is cut before the text it quotes. *)
Definition int (s : string) : result Z :=
  let body := strip s in
  let parsed :=
    match body with
    | String "-" s' => Z.opp <$> int_digits 0 false s'
    | String "+" s' => int_digits 0 false s'
    | _ => int_digits 0 false body
    end in
  match parsed with
  | Some n => Ok n
  | None => Raise (ValueError "invalid literal for int() with base 10")
  end.

(** [template.format(arg)] on the templates made of plain text, the doubled
    braces and one automatic field [{}]; [None] on every other template. *)
Fixpoint format_go (used : bool) (arg : string) (s : string) : option string :=
  match s with
  | EmptyString => Some EmptyString
  | String c s' =>
      if Ascii.eqb c "{" then
        match s' with
        | EmptyString => None
        | String d s'' =>
            if Ascii.eqb d "{" then String "{" <$> format_go used arg s''
            else if Ascii.eqb d "}" then
              if used then None else String.app arg <$> format_go true arg s''
            else None
        end
      else if Ascii.eqb c "}" then
        match s' with
        | EmptyString => None
        | String d s'' =>
            if Ascii.eqb d "}" then String "}" <$> format_go used arg s''
            else None
        end
      else String c <$> format_go used arg s'
  end.

Definition format (template : string) (arg : string) : option string :=
  format_go false arg template.

(** How [str.format] and an f-string print a value that may be [None]. *)
Definition str_of_option (o : option string) : string :=
  match o with
  | Some s => s
  | None => "None"
  end.

End Py.

Import Py.

Definition ESC : string := String "027" EmptyString.
Definition LF : string := String "010" EmptyString.

Definition Qlt_bool (a b : Q) : bool := negb (Qle_bool b a).

(** ** [terminal.py]: the recorder *)

Module Recorder.

(** [recording] holds the chunks with the seconds elapsed since
    [_start_stamp] when each was written. *)
Record t : Type := mk {
  recording : list (string * Q);
  _start_stamp : Q
}.

(** [Recorder()] at wall-clock time [now]. *)
Definition __init__ (now : Q) : t := mk [] now.

Definition _content (r : t) : string :=
  join "" (map fst (recording r)).

(** [r.write(data)] at wall-clock time [now]. *)
Definition write (now : Q) (data : string) (r : t) : t :=
  mk (recording r ++ [(data, now - _start_stamp r)%Q]) (_start_stamp r).

Section Exporting.
Variable strip_ansi : string -> string.

Definition export_text (r : t) : string := strip_ansi (_content r).

End Exporting.

End Recorder.

(** ** [terminal.py]: the color systems *)

Inductive ColorSystem : Type := NO_COLOR | STANDARD | EIGHT_BIT | TRUE.

(** The values of the members and the four comparisons, between members. *)
Module ColorSystemOps.

Definition value (c : ColorSystem) : Z :=
  match c with
  | NO_COLOR => -1
  | STANDARD => 0
  | EIGHT_BIT => 1
  | TRUE => 2
  end.

Definition ge (a b : ColorSystem) : bool := (value b <=? value a)%Z.
Definition gt (a b : ColorSystem) : bool := (value b <? value a)%Z.
Definition le (a b : ColorSystem) : bool := (value a <=? value b)%Z.
Definition lt (a b : ColorSystem) : bool := (value a <? value b)%Z.

Definition members : list (string * ColorSystem) :=
  [("NO_COLOR", NO_COLOR); ("STANDARD", STANDARD);
   ("EIGHT_BIT", EIGHT_BIT); ("TRUE", TRUE)].

Definition member_map : gmap string ColorSystem := list_to_map members.

(** [ColorSystem[name]]: the member of that name, [KeyError] when there is
    none. *)
Definition getitem (name : string) : result ColorSystem :=
  match member_map !! name with
  | Some c => Ok c
  | None => Raise (KeyError name)
  end.

End ColorSystemOps.

(** ** The world the terminal lives in *)

Inductive Event : Type :=
| stream_write (data : string)
| stream_flush
| stream_truncate (size : Z)
| stdout_write (data : string)
| stdout_flush
| sleep (seconds : Q).

Module Terminal.

(** The fields of a [Terminal] the properties below read or write.
    [colorsystem_slot] is the entry of the cached property [colorsystem] in
    the dictionary of the instance. The stream is outside the record: the
    calls on it are logged in the world. The listeners and the handler of
    resize signals are left out. *)
Record t : Type := mk {
  _recorder : option nat;
  _cursor : Z * Z;
  size : Z * Z;
  _forced_colorsystem : option ColorSystem;
  colorsystem_slot : option ColorSystem;
  pixel_size : Z * Z
}.

Definition origin : Z * Z := (1, 1)%Z.

Definition blank : t := mk None (0, 0)%Z (0, 0)%Z None None (0, 0)%Z.

Definition with_recorder (v : option nat) (x : t) : t :=
  mk v (_cursor x) (size x) (_forced_colorsystem x) (colorsystem_slot x)
     (pixel_size x).
Definition with_cursor (v : Z * Z) (x : t) : t :=
  mk (_recorder x) v (size x) (_forced_colorsystem x) (colorsystem_slot x)
     (pixel_size x).
Definition with_size (v : Z * Z) (x : t) : t :=
  mk (_recorder x) (_cursor x) v (_forced_colorsystem x) (colorsystem_slot x)
     (pixel_size x).
Definition with_forced (v : option ColorSystem) (x : t) : t :=
  mk (_recorder x) (_cursor x) (size x) v (colorsystem_slot x) (pixel_size x).
Definition with_slot (v : option ColorSystem) (x : t) : t :=
  mk (_recorder x) (_cursor x) (size x) (_forced_colorsystem x) v
     (pixel_size x).
Definition with_pixel_size (v : Z * Z) (x : t) : t :=
  mk (_recorder x) (_cursor x) (size x) (_forced_colorsystem x)
     (colorsystem_slot x) v.

End Terminal.

(** [environ] is [os.environ]; [time_time n] is what the [n]-th call of
    [time.time()] returns and [getch n] what the [n]-th call of [getch()]
    returns; [recorders] is the store of [Recorder] objects; [events] logs
    the calls on the terminal's stream, on [sys.stdout] and of
    [time.sleep], oldest first; [terminal] is the [Terminal] instance. *)
Record World : Type := mkWorld {
  environ : gmap string string;
  time_time : nat -> Q;
  clock_reads : nat;
  getch : nat -> string;
  getch_calls : nat;
  stdout_isatty : bool;
  get_terminal_size : Z * Z;
  recorders : list Recorder.t;
  events : list Event;
  terminal : Terminal.t
}.

Definition with_clock_reads (v : nat) (w : World) : World :=
  mkWorld (environ w) (time_time w) v (getch w) (getch_calls w)
    (stdout_isatty w) (get_terminal_size w) (recorders w) (events w)
    (terminal w).
Definition with_getch_calls (v : nat) (w : World) : World :=
  mkWorld (environ w) (time_time w) (clock_reads w) (getch w) v
    (stdout_isatty w) (get_terminal_size w) (recorders w) (events w)
    (terminal w).
Definition with_recorders (v : list Recorder.t) (w : World) : World :=
  mkWorld (environ w) (time_time w) (clock_reads w) (getch w) (getch_calls w)
    (stdout_isatty w) (get_terminal_size w) v (events w) (terminal w).
Definition with_events (v : list Event) (w : World) : World :=
  mkWorld (environ w) (time_time w) (clock_reads w) (getch w) (getch_calls w)
    (stdout_isatty w) (get_terminal_size w) (recorders w) v (terminal w).
Definition with_terminal (v : Terminal.t) (w : World) : World :=
  mkWorld (environ w) (time_time w) (clock_reads w) (getch w) (getch_calls w)
    (stdout_isatty w) (get_terminal_size w) (recorders w) (events w) v.

(** ** Computations that change the world and may raise *)

Definition M (A : Type) : Type := World -> result A * World.

Definition ret {A} (a : A) : M A := fun w => (Ok a, w).

Definition bind {A B} (c : M A) (k : A -> M B) : M B :=
  fun w =>
    match c w with
    | (Ok a, w') => k a w'
    | (Raise e, w') => (Raise e, w')
    end.

Definition raise {A} (e : exn) : M A := fun w => (Raise e, w).

Notation "'let*' x ':=' c 'in' k" := (bind c (fun x => k))
  (at level 10, x pattern, c at level 100, k at level 200).
Notation "c ';;' k" := (bind c (fun _ => k))
  (at level 100, k at level 200, right associativity).

Definition gets {A} (f : World -> A) : M A := fun w => (Ok (f w), w).
Definition modify (f : World -> World) : M unit := fun w => (Ok tt, f w).
Definition when (b : bool) (c : M unit) : M unit := if b then c else ret tt.

(** [try: body finally: cleanup] *)
Definition try_finally {A} (body : M A) (cleanup : M unit) : M A :=
  fun w =>
    match body w with
    | (Ok a, w') =>
        match cleanup w' with
        | (Ok _, w'') => (Ok a, w'')
        | (Raise e, w'') => (Raise e, w'')
        end
    | (Raise e, w') =>
        match cleanup w' with
        | (Ok _, w'') => (Raise e, w'')
        | (Raise e', w'') => (Raise e', w'')
        end
    end.

(** [try: body except ...: handler]: [handler e] is [None] when no clause
    of the statement catches [e]. *)
Definition try_except {A} (body : M A) (handler : exn -> option (M A)) : M A :=
  fun w =>
    match body w with
    | (Ok a, w') => (Ok a, w')
    | (Raise e, w') =>
        match handler e with
        | Some h => h w'
        | None => (Raise e, w')
        end
    end.

Definition lift {A} (r : result A) : M A := fun w => (r, w).

Fixpoint mapM {A B} (f : A -> M B) (l : list A) : M (list B) :=
  match l with
  | [] => ret []
  | a :: l' => let* b := f a in let* bs := mapM f l' in ret (b :: bs)
  end.

Definition log (e : Event) : M unit :=
  modify (fun w => with_events (events w ++ [e]) w).

(** [os.getenv(name)] and [os.getenv(name, default)] *)
Definition getenv (name : string) : M (option string) :=
  gets (fun w => environ w !! name).
Definition getenv_or (name fallback : string) : M string :=
  gets (fun w => default fallback (environ w !! name)).

(** [time.time()] *)
Definition time : M Q :=
  let* now := gets (fun w => time_time w (clock_reads w)) in
  modify (fun w => with_clock_reads (S (clock_reads w)) w) ;;
  ret now.

(** [time.sleep(seconds)] *)
Definition time_sleep (seconds : Q) : M unit :=
  if Qlt_bool seconds 0
  then raise (ValueError "sleep length must be non-negative")
  else log (sleep seconds).

(** [getch()] of [pytermgui.input]: the next answer of the keyboard. *)
Definition read_getch : M string :=
  let* reply := gets (fun w => getch w (getch_calls w)) in
  modify (fun w => with_getch_calls (S (getch_calls w)) w) ;;
  ret reply.

Definition self : M Terminal.t := gets terminal.
Definition update_self (f : Terminal.t -> Terminal.t) : M unit :=
  modify (fun w => with_terminal (f (terminal w)) w).

(** ** [terminal.py]: the terminal *)

(** [_get_env_colorsys()]: the lookup of a name which is no member raises
    [KeyError], and the only clause of the [try] statement is
    [except NameError]. *)
Definition _get_env_colorsys : M (option ColorSystem) :=
  let* colorsys := getenv "PTG_COLORSYS" in
  match colorsys with
  | None => ret None
  | Some name =>
      try_except
        (let* c := lift (ColorSystemOps.getitem name) in ret (Some c))
        (fun e => match e with
                  | NameError => Some (ret None)
                  | _ => None
                  end)
  end.

Module TerminalOps.

Import Terminal.

(** [Terminal._get_pixel_size()] *)
Definition _get_pixel_size : M (Z * Z) :=
  let* tty := gets stdout_isatty in
  if tty : bool then
    log (stdout_write (ESC ++ "[14t")) ;;
    log stdout_flush ;;
    let* reply := read_getch in
    let output := slice 4 1 reply in
    if contains ";" output then
      let* size := mapM (fun val => lift (int val)) (split ";" output) in
      match size with
      | height :: width :: _ => ret (width, height)
      | _ => raise IndexError
      end
    else ret (0, 0)%Z
  else ret (0, 0)%Z.

(** [Terminal._get_size()] *)
Definition _get_size : M (Z * Z) :=
  let* size := gets get_terminal_size in
  ret (fst size - fst origin, snd size - snd origin)%Z.

(** The getter of the property [forced_colorsystem]. *)
Definition forced_colorsystem : M (option ColorSystem) :=
  let* t := self in ret (_forced_colorsystem t).

(** The body of the cached property [colorsystem]. *)
Definition colorsystem_body : M ColorSystem :=
  let* forced := forced_colorsystem in
  match forced with
  | Some c => ret c
  | None =>
      let* no_color := getenv "NO_COLOR" in
      match no_color with
      | Some _ => ret NO_COLOR
      | None =>
          let* raw := getenv_or "COLORTERM" "" in
          let color_term := lower (strip raw) in
          if bool_decide (color_term ∈ ["24bit"; "truecolor"]) then ret TRUE
          else if String.eqb color_term "256color" then ret EIGHT_BIT
          else ret STANDARD
      end
  end.

(** [terminal.colorsystem]: a [cached_property], the body runs when the
    slot of the instance is empty and its value then fills the slot. *)
Definition colorsystem : M ColorSystem :=
  let* t := self in
  match colorsystem_slot t with
  | Some c => ret c
  | None =>
      let* c := colorsystem_body in
      update_self (with_slot (Some c)) ;;
      ret c
  end.

(** The setter of [forced_colorsystem]: [hasattr(self, "colorsystem")]
    reads the property, which fills the slot, and [del] empties it. *)
Definition set_forced_colorsystem (new : option ColorSystem) : M unit :=
  update_self (with_forced new) ;;
  let* _ := colorsystem in
  update_self (with_slot None).

(** [Terminal.clear_stream()] *)
Definition clear_stream : M unit := log (stream_truncate 0).

(** [self._recorder.write(data)] on the recorder stored at [l]. *)
Definition recorder_write (l : nat) (data : string) : M unit :=
  let* now := time in
  modify (fun w =>
    with_recorders (alter (Recorder.write now data) l (recorders w)) w).

Section Write.
Variable real_length : string -> Z.

(** [Terminal.write(data, pos, flush)] *)
Definition write (data : string) (pos : option (Z * Z)) (flush : bool)
  : M unit :=
  when (contains (ESC ++ "[2J") data) clear_stream ;;
  let data :=
    match pos with
    | Some (x, y) =>
        ESC ++ "[" ++ str_of_int y ++ ";" ++ str_of_int x ++ "H" ++ data
    | None => data
    end in
  let* t := self in
  match _recorder t with
  | Some l => recorder_write l data
  | None => ret tt
  end ;;
  log (stream_write data) ;;
  when flush (log stream_flush) ;;
  update_self (fun t =>
    with_cursor
      ((fst (_cursor t) + real_length (join "" (splitlines data)))%Z,
       (snd (_cursor t) + count LF data)%Z) t).

(** [Terminal.print]: [items] are the positional arguments. *)
Definition print (items : list string) (pos : option (Z * Z))
  (sep end_ : string) (flush : bool) : M unit :=
  write (join sep items ++ end_) pos flush.

(** The loop of [replay]: [i] is the index the iteration of
    [recorder.recording] has reached. The list is read again at every
    round, as the iteration of a Python list does. The result tells
    whether the loop has ended within [fuel] rounds. *)
Fixpoint replay_loop (fuel : nat) (recorder : nat) (i : nat) (last_time : Q)
  : M bool :=
  match fuel with
  | O => ret false
  | S fuel' =>
      let* store := gets recorders in
      match store !! recorder ≫= (fun r => Recorder.recording r !! i) with
      | None => ret true
      | Some (data, delay) =>
          when (Qlt_bool 0 last_time) (time_sleep (delay - last_time)%Q) ;;
          write data None true ;;
          replay_loop fuel' recorder (S i) delay
      end
  end.

(** [Terminal.replay(recorder)] *)
Definition replay (fuel : nat) (recorder : nat) : M bool :=
  replay_loop fuel recorder 0 0%Q.

End Write.

(** [with terminal.record() as recorder: body]: the generator of [record]
    runs up to its [yield], [body] stands for the block of the [with]
    statement, and the [finally] clause runs when the block is left. The
    message of the exception starts with the [repr] of the terminal, which
    is written [Terminal] here. *)
Definition record {A} (body : nat -> M A) : M A :=
  let* t := self in
  match _recorder t with
  | Some _ => raise (RuntimeError "Terminal is already recording.")
  | None =>
      try_finally
        (let* now := time in
         let* l := gets (fun w => length (recorders w)) in
         modify (fun w =>
           with_recorders (recorders w ++ [Recorder.__init__ now]) w) ;;
         update_self (with_recorder (Some l)) ;;
         body l)
        (update_self (with_recorder None))
  end.

(** [Terminal.__init__()] on a new instance. *)
Definition __init__ : M unit :=
  modify (with_terminal blank) ;;
  update_self (with_recorder None) ;;
  update_self (with_cursor origin) ;;
  let* size := _get_size in
  update_self (with_size size) ;;
  let* forced := _get_env_colorsys in
  set_forced_colorsystem forced ;;
  let* pixels := _get_pixel_size in
  update_self (with_pixel_size pixels).

End TerminalOps.

(** ** The fragment of Python's [re] used by the highlighter

    Patterns are built from literal characters, [.], the class escapes
    [\d \s \w] and their complements, bracketed classes, the three kinds of
    groups [(...)], [(?:...)] and [(?P<name>...)], alternation and the
    greedy and lazy forms of the postfix operators. Matching backtracks the
    way [re] does: the alternatives of [|] are tried from left to right, a
    greedy repetition tries one more round first, and a round of a
    repetition has to consume text. *)

Module Re.

Inductive regex : Type :=
| Empty
| Char (accepts : ascii -> bool)
| Seq (r1 r2 : regex)
| Alt (r1 r2 : regex)
| Star (greedy : bool) (r : regex)
| Group (index : nat) (r : regex).

(** A compiled pattern: [groupindex] maps the names of the named groups to
    their numbers. *)
Record pattern : Type := mkPattern {
  body : regex;
  groupindex : list (string * nat);
  groups : nat
}.

(** The groups closed so far on a path of the matcher, latest first, and
    the number of the group closed last. *)
Record captures : Type := mkCaptures {
  spans : list (nat * string);
  lastindex : option nat
}.

Definition no_captures : captures := mkCaptures [] None.

Definition close_group (i : nat) (text : list ascii) (c : captures) : captures :=
  mkCaptures ((i, string_of_list_ascii text) :: spans c) (Some i).

Definition outcome : Type := option (list ascii * captures).

Definition orelse (a : outcome) (b : outcome) : outcome :=
  match a with
  | Some x => Some x
  | None => b
  end.

(** The rounds of a repetition whose body is matched by [step]: at most
    [n] more rounds, each of which has to consume text. *)
Fixpoint rounds
  (step : list ascii -> captures -> (list ascii -> captures -> outcome) -> outcome)
  (greedy : bool) (k : list ascii -> captures -> outcome)
  (n : nat) (s : list ascii) (c : captures) {struct n} : outcome :=
  match n with
  | O => k s c
  | S n' =>
      let again :=
        step s c (fun s' c' =>
          if (length s' <? length s)%nat
          then rounds step greedy k n' s' c'
          else None) in
      if greedy then orelse again (k s c) else orelse (k s c) again
  end.

(** [run r s c k]: match [r] at the head of [s], then go on with [k] on the
    rest of the text; the first success in the order of backtracking. *)
Fixpoint run (r : regex) (s : list ascii) (c : captures)
  (k : list ascii -> captures -> outcome) {struct r} : outcome :=
  match r with
  | Empty => k s c
  | Char accepts =>
      match s with
      | a :: s' => if accepts a then k s' c else None
      | [] => None
      end
  | Seq r1 r2 => run r1 s c (fun s' c' => run r2 s' c' k)
  | Alt r1 r2 => orelse (run r1 s c k) (run r2 s c k)
  | Star greedy r1 => rounds (run r1) greedy k (S (length s)) s c
  | Group i r1 =>
      run r1 s c (fun s' c' =>
        k s' (close_group i (take (length s - length s') s) c'))
  end.

(** One attempt of the matcher at the head of [s]; with [must_advance] an
    empty match does not count. *)
Definition match_here (p : pattern) (must_advance : bool) (s : list ascii)
  : outcome :=
  run (body p) s no_captures (fun s' c' =>
    if must_advance && (length s' =? length s)%nat then None else Some (s', c')).

(** A match object. *)
Record Match : Type := mkMatch {
  whole : string;
  groupdict : gmap string (option string);
  lastgroup : option string
}.

Definition group_text (c : captures) (i : nat) : option string :=
  snd <$> List.find (fun e => fst e =? i)%nat (spans c).

Definition name_of_index (p : pattern) (i : nat) : option string :=
  fst <$> List.find (fun e => snd e =? i)%nat (groupindex p).

Definition to_match (p : pattern) (text : list ascii) (c : captures) : Match :=
  mkMatch (string_of_list_ascii text)
    (list_to_map (map (fun e => (fst e, group_text c (snd e))) (groupindex p)))
    (lastindex c ≫= name_of_index p).

Section Sub.
Variable p : pattern.
Variable repl : Match -> option string.

Definition replaced (s rest : list ascii) (c : captures) : option string :=
  repl (to_match p (take (length s - length rest) s) c).

(** The scan of [pattern.sub(repl, text)]. [skip] counts the characters of
    the last match still to be passed. After an empty match the search
    starts again at the same place and has to advance. *)
Fixpoint sub_go (skip : nat) (s : list ascii) {struct s} : option string :=
  match skip, s with
  | S k, _ :: s' => sub_go k s'
  | S _, [] => Some EmptyString
  | O, [] =>
      match match_here p false [] with
      | Some (rest, c) => replaced [] rest c
      | None => Some EmptyString
      end
  | O, a :: s' =>
      let copy := String a <$> sub_go 0 s' in
      let after (rest : list ascii) (c : captures) :=
        out ← replaced s rest c;
        tail ← sub_go (length s - length rest - 1) s';
        Some (out ++ tail) in
      match match_here p false s with
      | None => copy
      | Some (rest, c) =>
          if (length rest <? length s)%nat then after rest c
          else
            out ← replaced s rest c;
            tail ← match match_here p true s with
                   | Some (rest', c') => after rest' c'
                   | None => copy
                   end;
            Some (out ++ tail)
      end
  end.

Definition sub (text : string) : option string :=
  sub_go 0 (list_ascii_of_string text).

End Sub.

(** *** Compiling a pattern *)

Definition isalpha (c : ascii) : bool :=
  between 65 90 c || between 97 122 c || (code c =? 170)%N ||
  (code c =? 181)%N || (code c =? 186)%N || between 192 214 c ||
  between 216 246 c || between 248 255 c.

Definition isnumeric (c : ascii) : bool :=
  isdecimal c || between 178 179 c || (code c =? 185)%N || between 188 190 c.

Definition isword (c : ascii) : bool :=
  isalpha c || isnumeric c || Ascii.eqb c "_".

Definition is_ascii_alnum (c : ascii) : bool :=
  between 48 57 c || between 65 90 c || between 97 122 c.

Definition is_char (a : ascii) : ascii -> bool := Ascii.eqb a.

(** The character set of the escape [\c]; [None] for the escapes that are
    left out (back references, anchors) or that [re] refuses. *)
Definition escape (c : ascii) : option (ascii -> bool) :=
  if Ascii.eqb c "d" then Some isdecimal
  else if Ascii.eqb c "D" then Some (fun a => negb (isdecimal a))
  else if Ascii.eqb c "s" then Some isspace
  else if Ascii.eqb c "S" then Some (fun a => negb (isspace a))
  else if Ascii.eqb c "w" then Some isword
  else if Ascii.eqb c "W" then Some (fun a => negb (isword a))
  else if Ascii.eqb c "n" then Some (is_char "010")
  else if Ascii.eqb c "t" then Some (is_char "009")
  else if Ascii.eqb c "r" then Some (is_char "013")
  else if Ascii.eqb c "f" then Some (is_char "012")
  else if Ascii.eqb c "v" then Some (is_char "011")
  else if Ascii.eqb c "a" then Some (is_char "007")
  else if is_ascii_alnum c then None
  else Some (is_char c).

Definition in_range (lo hi : ascii) (a : ascii) : bool :=
  ((code lo <=? code a) && (code a <=? code hi))%N.

Definition union (p q : ascii -> bool) (a : ascii) : bool := p a || q a.

(** The items of a bracketed class up to its closing bracket. *)
Fixpoint class_items (acc : ascii -> bool) (s : list ascii)
  : option ((ascii -> bool) * list ascii) :=
  match s with
  | [] => None
  | "]"%char :: s' => Some (acc, s')
  | "["%char :: _ => None
  | "\"%char :: c :: s' =>
      set ← escape c; class_items (union acc set) s'
  | "\"%char :: [] => None
  | lo :: "-"%char :: "]"%char :: s' =>
      Some (union (union acc (is_char lo)) (is_char "-"), s')
  | _ :: "-"%char :: "\"%char :: _ => None
  | lo :: "-"%char :: hi :: s' =>
      if (code lo <=? code hi)%N
      then class_items (union acc (in_range lo hi)) s'
      else None
  | a :: s' => class_items (union acc (is_char a)) s'
  end.

Definition class (s : list ascii) : option ((ascii -> bool) * list ascii) :=
  match s with
  | "]"%char :: _ => None
  | "^"%char :: "]"%char :: _ => None
  | "^"%char :: s' =>
      '(set, rest) ← class_items (fun _ => false) s';
      Some (fun a => negb (set a), rest)
  | _ => class_items (fun _ => false) s
  end.

Definition is_identifier_char (a : ascii) : bool :=
  is_ascii_alnum a || Ascii.eqb a "_".

Fixpoint is_identifier_tail (s : list ascii) : bool :=
  match s with
  | [] => true
  | a :: s' => is_identifier_char a && is_identifier_tail s'
  end.

(** Group names are identifiers; only the ones written in ASCII are taken. *)
Definition is_identifier (s : list ascii) : bool :=
  match s with
  | [] => false
  | a :: _ => negb (between 48 57 a) && is_identifier_tail s
  end.

Fixpoint until_gt (acc : list ascii) (s : list ascii)
  : option (list ascii * list ascii) :=
  match s with
  | [] => None
  | ">"%char :: s' => Some (acc, s')
  | a :: s' => until_gt (acc ++ [a]) s'
  end.

Record pstate : Type := mkPstate {
  next_group : nat;
  named : list (string * nat)
}.

Definition parsed : Type := option (regex * list ascii * pstate).

(** The postfix operators after an atom [r]. *)
Definition postfix (r : regex) (s : list ascii) : option (regex * list ascii) :=
  let single (r' : regex) (rest : list ascii) :=
    match rest with
    | "*"%char :: _ | "+"%char :: _ | "?"%char :: _ | "{"%char :: _ => None
    | _ => Some (r', rest)
    end in
  match s with
  | "*"%char :: "?"%char :: rest => single (Star false r) rest
  | "+"%char :: "?"%char :: rest => single (Seq r (Star false r)) rest
  | "?"%char :: "?"%char :: rest => single (Alt Empty r) rest
  | "*"%char :: rest => single (Star true r) rest
  | "+"%char :: rest => single (Seq r (Star true r)) rest
  | "?"%char :: rest => single (Alt r Empty) rest
  | "{"%char :: _ => None
  | _ => Some (r, s)
  end.

Fixpoint parse_alt (fuel : nat) (s : list ascii) (st : pstate) : parsed :=
  match fuel with
  | O => None
  | S fuel' =>
      '(r1, rest, st1) ← parse_seq fuel' s st;
      match rest with
      | "|"%char :: rest' =>
          '(r2, rest2, st2) ← parse_alt fuel' rest' st1;
          Some (Alt r1 r2, rest2, st2)
      | _ => Some (r1, rest, st1)
      end
  end
with parse_seq (fuel : nat) (s : list ascii) (st : pstate) : parsed :=
  match fuel with
  | O => None
  | S fuel' =>
      match s with
      | [] | "|"%char :: _ | ")"%char :: _ => Some (Empty, s, st)
      | _ =>
          '(r1, rest, st1) ← parse_atom fuel' s st;
          '(r1', rest') ← postfix r1 rest;
          '(r2, rest2, st2) ← parse_seq fuel' rest' st1;
          Some (match r2 with Empty => r1' | _ => Seq r1' r2 end, rest2, st2)
      end
  end
with parse_atom (fuel : nat) (s : list ascii) (st : pstate) : parsed :=
  match fuel with
  | O => None
  | S fuel' =>
      let inner (rest : list ascii) (st' : pstate) (wrap : regex -> regex) :=
        '(r, rest', st'') ← parse_alt fuel' rest st';
        match rest' with
        | ")"%char :: rest'' => Some (wrap r, rest'', st'')
        | _ => None
        end in
      match s with
      | [] => None
      | "("%char :: "?"%char :: ":"%char :: rest => inner rest st (fun r => r)
      | "("%char :: "?"%char :: "P"%char :: "<"%char :: rest =>
          '(name, rest') ← until_gt [] rest;
          let i := next_group st in
          inner rest'
            (mkPstate (S i) (named st ++ [(string_of_list_ascii name, i)]))
            (Group i)
      | "("%char :: "?"%char :: _ => None
      | "("%char :: rest =>
          let i := next_group st in
          inner rest (mkPstate (S i) (named st)) (Group i)
      | "["%char :: rest =>
          '(set, rest') ← class rest; Some (Char set, rest', st)
      | "\"%char :: c :: rest => set ← escape c; Some (Char set, rest, st)
      | "."%char :: rest => Some (Char (fun a => negb (Ascii.eqb a "010")), rest, st)
      | a :: rest =>
          if mem_char a "\*+?{}^$|)" then None
          else Some (Char (is_char a), rest, st)
      end
  end.

(** The names of the groups of a pattern have to be identifiers, and no
    two groups may share a name. *)
Definition valid_names (names : list string) : bool :=
  forallb (fun name => is_identifier (list_ascii_of_string name)) names
  && bool_decide (NoDup names).

(** [re.compile(source)]; [None] when [source] is outside the fragment,
    which covers the sources [re] refuses. *)
Definition compile (source : string) : option pattern :=
  let s := list_ascii_of_string source in
  '(r, rest, st) ← parse_alt (4 * length s + 4) s (mkPstate 1 []);
  match rest with
  | [] =>
      if valid_names (map fst (named st))
      then Some (mkPattern r (named st) (next_group st - 1))
      else None
  | _ => None
  end.

End Re.

(** ** [highlighters.py] *)

Module RegexHighlighter.

Record t : Type := mk {
  styles : list (string * string);
  prefix : string;
  _pattern : Re.pattern;
  _highlight_cache : gmap string string
}.

(** The source of the combined pattern, as the loop of [__post_init__]
    builds it. *)
Definition combined (styles : list (string * string)) : string :=
  rstrip "|"
    (fold_left
       (fun pattern '(name, ptrn) => pattern ++ "(?P<" ++ name ++ ">" ++ ptrn ++ ")|")
       styles EmptyString).

(** [RegexHighlighter(styles, prefix)]: the fields of the data class, then
    [__post_init__]. *)
Definition __post_init__ (styles : list (string * string)) (prefix : string)
  : option t :=
  pattern ← Re.compile (combined styles);
  Some (mk styles prefix pattern ∅).

Section Call.
(** [markup_found content] stands for
    [len(RE_MARKUP.findall(content)) > 0]. *)
Variable markup_found : string -> bool.

(** The closure [_insert_style] of [__call__]. The result is [None] when
    the template built from the tag is outside the fragment of [format], and
    when [RE_MARKUP.findall] is given a content that is [None]. *)
Definition _insert_style (prefix : string) (matchobj : Re.Match)
  : option string :=
  let groups := Re.groupdict matchobj in
  let name := Re.lastgroup matchobj in
  let content := mjoin (groups !! str_of_option name) in
  content' ←
    (if bool_decide (name = Some "str") then
       text ← content;
       Some (Some (if markup_found text then replace "[" "\[" text else text))
     else Some content);
  let tag := prefix ++ str_of_option name in
  let style := "[" ++ tag ++ "]{}[/" ++ tag ++ "]" in
  format style (str_of_option content').

(** [hl(text, cache)]: the text returned and the highlighter with its
    cache after the call. *)
Definition __call__ (hl : t) (text : string) (cache : bool)
  : option (string * t) :=
  match (if cache then _highlight_cache hl !! text else None) with
  | Some hit => Some (hit, hl)
  | None =>
      let cache_key := text in
      text' ← Re.sub (_pattern hl) (_insert_style (prefix hl)) text;
      Some (text',
            mk (styles hl) (prefix hl) (_pattern hl)
               (<[cache_key := text']> (_highlight_cache hl)))
  end.

End Call.

End RegexHighlighter.

(** ** The color system policy, in the words of the specification

    [colorsystem_policy forced no_color color_term] is the precedence order
    of the specification: the override, then the no-color signal, then the
    two hints read from the color-term value, then the standard system. *)
Definition colorsystem_policy (forced : option ColorSystem)
  (no_color : option string) (color_term : string) : ColorSystem :=
  match forced with
  | Some c => c
  | None =>
      match no_color with
      | Some _ => NO_COLOR
      | None =>
          if String.eqb color_term "24bit" || String.eqb color_term "truecolor"
          then TRUE
          else if String.eqb color_term "256color" then EIGHT_BIT
          else STANDARD
      end
  end.

(** The color-term value of a world, as the environment holds it. *)
Definition color_term_of (w : World) : string :=
  default EmptyString (environ w !! "COLORTERM").

(** ** Worlds used in the examples *)

Definition initial_world (env : gmap string string) (tty : bool)
  (reply : string) : World :=
  mkWorld env (fun n => inject_Z (Z.of_nat n)) 0 (fun _ => reply) 0 tty
    (80, 24)%Z [] [] Terminal.blank.

(** A world that holds the recorders [store], none of them attached. *)
Definition world_with (store : list Recorder.t) : World :=
  with_recorders store (initial_world ∅ false EmptyString).

(** The durations of the calls of [time.sleep] in a log. *)
Definition slept (log : list Event) : list Q :=
  omap (fun e => match e with sleep d => Some d | _ => None end) log.

(** The chunks written to the stream in a log. *)
Definition chunks_written (log : list Event) : list string :=
  omap (fun e => match e with stream_write d => Some d | _ => None end) log.

(** A sequence of calls of [Recorder.write], each with the reading of the
    clock at its time. *)
Definition write_all (writes : list (Q * string)) (r : Recorder.t)
  : Recorder.t :=
  fold_left (fun r '(now, data) => Recorder.write now data r) writes r.

(** The world in which the block of a recording scope starts: a new and
    empty recorder is in the store and is the active one. *)
Definition scope_entered (w : World) : World :=
  with_terminal (Terminal.with_recorder (Some (length (recorders w))) (terminal w))
    (with_recorders
       (recorders w ++ [Recorder.__init__ (time_time w (clock_reads w))])
       (with_clock_reads (S (clock_reads w)) w)).

(** A start of the program with the override variable set to a name that
    is no member of [ColorSystem]. *)
Definition misnamed_override_world : World :=
  initial_world {["PTG_COLORSYS" := "truecolor"]} false EmptyString.

(** An interactive terminal whose answer to the pixel-size query has its
    separator and fields that are no integers. *)
Definition garbled_reply_world : World :=
  initial_world ∅ true (ESC ++ "[4;abc;deft").

(** A terminal whose color-term value is written in mixed case. *)
Definition mixed_case_world : World :=
  initial_world {["COLORTERM" := "TrueColor"]} false EmptyString.

(** Two scopes, one inside the other, after one write in the outer one. *)
Definition nested_scopes (real_length : string -> Z) : result nat * World :=
  TerminalOps.record (fun _ =>
    TerminalOps.write real_length "hello" None false ;;
    TerminalOps.record (fun inner => ret inner))
    (initial_world ∅ false EmptyString).

(** What [write(data, flush=True)] logs: the truncation when [data] has the
    clear-screen sequence, the write and the flush. *)
Definition write_log (data : string) : list Event :=
  ((if contains (ESC ++ "[2J") data then [stream_truncate 0] else [])
   ++ [stream_write data; stream_flush])%list.

(** What a replay logs from an entry on, [last_time] being the elapsed time
    of the entry before. *)
Fixpoint replay_log (last_time : Q) (entries : list (string * Q))
  : list Event :=
  match entries with
  | [] => []
  | (data, delay) :: rest =>
      ((if Qlt_bool 0 last_time then [sleep (delay - last_time)%Q] else [])
       ++ write_log data ++ replay_log delay rest)%list
  end.

(** The elapsed times of a recording never go down. *)
Fixpoint nondecreasing (elapsed : list Q) : bool :=
  match elapsed with
  | [] => true
  | a :: rest =>
      match rest with
      | [] => true
      | b :: _ => Qle_bool a b && nondecreasing rest
      end
  end.

(** The pauses between the entries of a recording: one for each entry whose
    predecessor has a positive elapsed time, of the difference of the two. *)
Fixpoint pauses (elapsed : list Q) : list Q :=
  match elapsed with
  | [] => []
  | a :: rest =>
      match rest with
      | [] => []
      | b :: _ =>
          ((if Qlt_bool 0 a then [(b - a)%Q] else []) ++ pauses rest)%list
      end
  end.

(** The recording of the replay scenario of the specification. *)
Definition paced_recording : Recorder.t :=
  Recorder.mk [("a", 0%Q); ("b", 5 # 100); ("c", 12 # 100)] 0.

(** ** Notions used to state the properties of the highlighter *)

Module Highlight.

Import RegexHighlighter.

(** The highlighter of the end-to-end scenario of the specification. *)
Definition scenario : option t :=
  __post_init__ [("num", "\d+"); ("word", "[a-z]+")] "x.".

(** A highlighter with a style for string literals in single quotes and a
    style for words. *)
Definition quoting : option t :=
  __post_init__ [("str", "'[^']*'"); ("word", "\w+")] "code.".

(** No brace in the text: a tag of that kind is a template of [format]
    with the one field the code writes. *)
Fixpoint brace_free (s : string) : bool :=
  match s with
  | EmptyString => true
  | String c s' =>
      negb (Ascii.eqb c "{" || Ascii.eqb c "}") && brace_free s'
  end.

(** The markup put around [content] for the tag [tag]. *)
Definition tagged (tag content : string) : string :=
  "[" ++ tag ++ "]" ++ content ++ "[/" ++ tag ++ "]".

(** Every opening bracket of the text with a backslash before it. *)
Fixpoint escape_brackets (s : string) : string :=
  match s with
  | EmptyString => EmptyString
  | String c s' =>
      if Ascii.eqb c "[" then String "\" (String "[" (escape_brackets s'))
      else String c (escape_brackets s')
  end.

Section Calls.
Variable markup_found : string -> bool.

(** What a call that does not look into the cache returns. *)
Definition uncached (hl : t) (text : string) : option string :=
  fst <$> __call__ markup_found hl text false.

(** The highlighters reached from [hl0] by calls that return. *)
Inductive reachable (hl0 : t) : t -> Prop :=
| reach_start : reachable hl0 hl0
| reach_call (hl hl' : t) (text out : string) (cache : bool) :
    reachable hl0 hl ->
    __call__ markup_found hl text cache = Some (out, hl') ->
    reachable hl0 hl'.

(** Every entry of the cache is what an uncached call returns on its key. *)
Definition cache_consistent (hl : t) : Prop :=
  forall key value : string,
    _highlight_cache hl !! key = Some value -> uncached hl key = Some value.

End Calls.

(** Modelled from the spec: [RE_MARKUP] of [pytermgui.regex] is missing; it
    finds the markup tags of a text, and a markup tag is a bracketed name:
    an opening bracket, at least one character that is no bracket, and a
    closing bracket. [closed_tag_found s] tells whether [s] has one. *)
Fixpoint closed_tag_from (opened : bool) (named : bool) (s : string) : bool :=
  match s with
  | EmptyString => false
  | String c s' =>
      if Ascii.eqb c "[" then closed_tag_from true false s'
      else if Ascii.eqb c "]" then
        (opened && named) || closed_tag_from false false s'
      else closed_tag_from opened opened s'
  end.

Definition closed_tag_found (s : string) : bool :=
  closed_tag_from false false s.

(** A match of the style [str] on a text with one opening bracket and no
    closing one. *)
Definition open_bracket_match : Re.Match :=
  Re.mkMatch "'b['" {["str" := Some "'b['"]} (Some "str").

End Highlight.

(** The group closed last on a path of the matcher has its text. *)
Definition closed_last (c : Re.captures) : Prop :=
  forall i, Re.lastindex c = Some i -> is_Some (Re.group_text c i).

(** A match object whose last group, if it has a name, is in the
    dictionary of the groups with its text. *)
Definition named_last (m : Re.Match) : Prop :=
  forall name, Re.lastgroup m = Some name ->
    exists content, Re.groupdict m !! name = Some (Some content).

(** A match of the style [str] on a text with a tag in it. *)
Definition tag_in_string_match : Re.Match :=
  Re.mkMatch "'a[0]'" {["str" := Some "'a[0]'"]} (Some "str").

(** A continuation keeps the property when it does so from every text and
    every set of captures that has it. *)
Definition keeps_closed_last (k : list ascii -> Re.captures -> Re.outcome)
  : Prop :=
  forall s c res, closed_last c -> k s c = Some res -> closed_last (snd res).

(** The highlighter of the scenario, as an instance. *)
Definition scenario_hl : RegexHighlighter.t :=
  default (RegexHighlighter.mk [] "" (Re.mkPattern Re.Empty [] 0) ∅)
    Highlight.scenario.

(** The entries of the recorder stored at [l]; none when there is no such
    recorder. *)
Definition recording_at (l : nat) (w : World) : list (string * Q) :=
  match recorders w !! l with
  | Some r => Recorder.recording r
  | None => []
  end.

(** In the loop of [replay], [last_time] is zero before the first entry and
    the elapsed time of the entry before afterwards. *)
Definition follows (l i : nat) (last_time : Q) (w : World) : Prop :=
  match i with
  | O => last_time = 0%Q
  | S j => exists data, recording_at l w !! j = Some (data, last_time)
  end.

(** The world after one round of the loop of [replay] on the entry
    [(data, delay)]. *)
Definition after_round (real_length : string -> Z) (data : string)
  (delay last_time : Q) (w : World) : World :=
  snd (TerminalOps.write real_length data None true
         (snd (when (Qlt_bool 0 last_time)
                 (time_sleep (delay - last_time)%Q) w))).

(** A terminal that is recording into the recorder at location 0, which
    holds one entry, with [clock] as wall clock. *)
Definition recording_world (clock : nat -> Q) : World :=
  mkWorld ∅ clock 0 (fun _ => EmptyString) 0 false (80, 24)%Z
    [Recorder.mk [("a", 1%Q)] 0] []
    (Terminal.with_recorder (Some 0%nat) Terminal.blank).

(** The differences between each elapsed time and the one before. *)
Fixpoint differences (elapsed : list Q) : list Q :=
  match elapsed with
  | [] => []
  | a :: rest =>
      match rest with
      | [] => []
      | b :: _ => (b - a)%Q :: differences rest
      end
  end.

(** ** [terminal.py]: listeners and the resize handler

    A listener is known by a value of [callback], and [invoke c data] is
    what the call [c(data)] does to the world. The table of the listeners
    is passed to the functions that read it: the listeners modelled change
    the world and not the table. The payload of an event is a size, the
    only one the code sends. *)

Module TerminalEvents.

Import Terminal.

(** [Terminal.RESIZE] *)
Definition RESIZE : Z := 0.

Section Events.
Variable callback : Type.
Variable invoke : callback -> Z * Z -> M unit.
Variable real_length : string -> Z.

(** [terminal.subscribe(event, callback)] *)
Definition subscribe (event : Z) (cb : callback)
  (listeners : gmap Z (list callback)) : gmap Z (list callback) :=
  let listeners :=
    if decide (is_Some (listeners !! event)) then listeners
    else <[event := []]> listeners in
  alter (fun callbacks => (callbacks ++ [cb])%list) event listeners.

(** [for callback in callbacks: callback(data)] *)
Fixpoint call_each (callbacks : list callback) (data : Z * Z) : M unit :=
  match callbacks with
  | [] => ret tt
  | cb :: rest => invoke cb data ;; call_each rest data
  end.

(** [terminal._call_listener(event, data)] *)
Definition _call_listener (event : Z) (data : Z * Z)
  (listeners : gmap Z (list callback)) : M unit :=
  match listeners !! event with
  | Some callbacks => call_each callbacks data
  | None => ret tt
  end.

(** [terminal._update_size()] *)
Definition _update_size (listeners : gmap Z (list callback)) : M unit :=
  let* size := TerminalOps._get_size in
  update_self (with_size size) ;;
  let* pixels := TerminalOps._get_pixel_size in
  update_self (with_pixel_size pixels) ;;
  let* t := self in
  _call_listener RESIZE (Terminal.size t) listeners ;;
  TerminalOps.write real_length (ESC ++ "[2J") None false.

End Events.

End TerminalEvents.

(** ** Notions used to state further properties of the terminal *)

(** The data [write] sends on once the position, if any, is put before
    it. *)
Definition positioned (pos : option (Z * Z)) (data : string) : string :=
  match pos with
  | Some (x, y) =>
      ESC ++ "[" ++ str_of_int y ++ ";" ++ str_of_int x ++ "H" ++ data
  | None => data
  end.

(** A text without its line boundary characters. *)
Fixpoint without_linebreaks (s : string) : string :=
  match s with
  | EmptyString => EmptyString
  | String c s' =>
      if islinebreak c then without_linebreaks s'
      else String c (without_linebreaks s')
  end.




(** What a call of [write] logs. *)
Definition write_events (data : string) (pos : option (Z * Z)) (flush : bool)
  : list Event :=
  ((if contains (ESC ++ "[2J") data then [stream_truncate 0] else [])
   ++ [stream_write (positioned pos data)]
   ++ (if flush then [stream_flush] else []))%list.

(** The world after a call of [write]. *)
Definition after_write (real_length : string -> Z) (data : string)
  (pos : option (Z * Z)) (flush : bool) (w : World) : World :=
  with_terminal
    (Terminal.with_cursor
       ((fst (Terminal._cursor (terminal w))
         + real_length (without_linebreaks (positioned pos data)))%Z,
        (snd (Terminal._cursor (terminal w)) + count LF data)%Z)
       (terminal w))
    (with_events (events w ++ write_events data pos flush)
       match Terminal._recorder (terminal w) with
       | Some l =>
           with_recorders
             (alter
                (Recorder.write (time_time w (clock_reads w))
                   (positioned pos data))
                l (recorders w))
             (with_clock_reads (S (clock_reads w)) w)
       | None => w
       end).






(** The table of listeners after the callbacks have subscribed to the
    event one after the other. *)
Definition subscribe_all {callback : Type} (event : Z) (cbs : list callback)
  (listeners : gmap Z (list callback)) : gmap Z (list callback) :=
  fold_left (fun table cb => TerminalEvents.subscribe callback event cb table)
    cbs listeners.

(** Listeners of the examples: one that prints the size it is given and
    one that fails. *)
Definition sample_listener (fails : bool) (data : Z * Z) : M unit :=
  if fails then raise IndexError
  else log (stdout_write (str_of_int (fst data) ++ "x" ++ str_of_int (snd data))).

(** ** Notions used to state further properties of the highlighter *)

(** The named group [__post_init__] writes for a style. *)
Definition group_source (style : string * string) : string :=
  "(?P<" ++ fst style ++ ">" ++ snd style ++ ")".

(** A text with [mark] before each of its characters and at its end. *)
Fixpoint marked_everywhere (mark : string) (s : string) : string :=
  match s with
  | EmptyString => mark
  | String c s' => mark ++ String c (marked_everywhere mark s')
  end.

(** * Properties *)

(** ** Strings *)

Lemma append_cons (a : ascii) (s t : string) :
  String a s ++ t = String a (s ++ t).
Proof. reflexivity. Qed.

Lemma append_empty_r (s : string) : s ++ EmptyString = s.
Proof.
  induction s as [|a s IH]; [reflexivity|].
  now rewrite append_cons, IH.
Qed.

Lemma append_assoc (s1 s2 s3 : string) : (s1 ++ s2) ++ s3 = s1 ++ (s2 ++ s3).
Proof.
  induction s1 as [|a s1 IH]; [reflexivity|].
  now rewrite !append_cons, IH.
Qed.

Lemma join_empty_cons (x : string) (l : list string) :
  join "" (x :: l) = x ++ join "" l.
Proof.
  unfold join. destruct l as [|y l]; simpl.
  - now rewrite append_empty_r.
  - reflexivity.
Qed.

Lemma join_empty_app (l1 l2 : list string) :
  join "" (l1 ++ l2) = join "" l1 ++ join "" l2.
Proof.
  induction l1 as [|x l1 IH].
  - reflexivity.
  - rewrite <- app_comm_cons, !join_empty_cons, IH. now rewrite append_assoc.
Qed.

Lemma prefix_single (a c : ascii) (s : string) :
  String.prefix (String a EmptyString) (String c s) = Ascii.eqb c a.
Proof.
  change (String.prefix (String a EmptyString) (String c s))
    with (if ascii_dec a c then String.prefix EmptyString s else false).
  destruct (ascii_dec a c) as [->|Hne].
  - rewrite Ascii.eqb_refl. now destruct s.
  - symmetry. apply Ascii.eqb_neq. congruence.
Qed.

(** ** The recorder *)

Lemma write_all_snoc (writes : list (Q * string)) (now : Q) (data : string)
  (r : Recorder.t) :
  write_all (writes ++ [(now, data)]) r
  = Recorder.write now data (write_all writes r).
Proof. unfold write_all. now rewrite fold_left_app. Qed.

Lemma write_all_chunks (writes : list (Q * string)) (r : Recorder.t) :
  map fst (Recorder.recording (write_all writes r))
  = (map fst (Recorder.recording r) ++ map snd writes)%list.
Proof.
  induction writes as [|[now data] writes IH] using rev_ind.
  - simpl. now rewrite app_nil_r.
  - rewrite write_all_snoc. simpl.
    rewrite !map_app, IH. simpl. now rewrite app_assoc.
Qed.


(** C6. Whatever chunks are written to a new recorder, and whenever they are
    written, [export_text] returns [strip_ansi] of the chunks joined in the
    order of the writes. *)
Theorem export_text_write_all (strip_ansi : string -> string) (start : Q)
  (writes : list (Q * string)) :
  Recorder.export_text strip_ansi (write_all writes (Recorder.__init__ start))
  = strip_ansi (join "" (map snd writes)).
Proof.
  unfold Recorder.export_text, Recorder._content.
  now rewrite write_all_chunks.
Qed.


(** ** Recording scopes *)

Import Terminal TerminalOps.

Lemma update_self_recorder (v : option nat) (w : World) :
  _recorder (terminal (snd (update_self (with_recorder v) w))) = v.
Proof. reflexivity. Qed.

Lemma try_finally_clears {A} (body : M A) (w : World) :
  _recorder
    (terminal (snd (try_finally body (update_self (with_recorder None)) w)))
  = None.
Proof.
  unfold try_finally.
  destruct (body w) as [[a|e] w']; reflexivity.
Qed.

Lemma try_finally_result {A} (body : M A) (w : World) :
  fst (try_finally body (update_self (with_recorder None)) w) = fst (body w).
Proof.
  unfold try_finally.
  destruct (body w) as [[a|e] w']; reflexivity.
Qed.

Lemma record_free {A} (body : nat -> M A) (w : World) :
  _recorder (terminal w) = None ->
  record body w
  = try_finally
      (let* now := time in
       let* l := gets (fun w => length (recorders w)) in
       modify (fun w =>
         with_recorders (recorders w ++ [Recorder.__init__ now]) w) ;;
       update_self (with_recorder (Some l)) ;;
       body l)
      (update_self (with_recorder None)) w.
Proof.
  intros Hrec. unfold record. unfold bind at 1. unfold self, gets at 1.
  now rewrite Hrec.
Qed.

(** C3. When a recording is active, entering [record()] raises
    [RuntimeError] and leaves the world as it was: the block is not run, the
    first recorder stays attached and the store of recorders, hence its
    entries, is the same. When none is active, the block runs with a new
    recorder attached, its result or its exception is the one of the whole
    statement, and the terminal has no active recorder afterwards. *)
Theorem record_exclusive_and_released {A} (body : nat -> M A) (w : World) :
  match _recorder (terminal w) with
  | Some first =>
      record body w = (Raise (RuntimeError "Terminal is already recording."), w)
      /\ _recorder (terminal (snd (record body w))) = Some first
      /\ recorders (snd (record body w)) = recorders w
  | None =>
      fst (record body w) = fst (body (length (recorders w)) (scope_entered w))
      /\ _recorder (terminal (snd (record body w))) = None
  end.
Proof.
  destruct (_recorder (terminal w)) as [first|] eqn:Hrec.
  - assert (Hraise : record body w
                     = (Raise (RuntimeError "Terminal is already recording."), w)).
    { unfold record, bind, self, gets. now rewrite Hrec. }
    rewrite Hraise. simpl. auto.
  - rewrite (record_free body w Hrec). split.
    + rewrite try_finally_result. reflexivity.
    + apply try_finally_clears.
Qed.

(** Nested scopes: the inner [record()] raises, the outer block is left by
    that exception, and the recorder of the outer scope keeps the one chunk
    written before. *)
Example nested_record (real_length : string -> Z) :
  fst (nested_scopes real_length)
  = Raise (RuntimeError "Terminal is already recording.")
  /\ _recorder (terminal (snd (nested_scopes real_length))) = None
  /\ Recorder._content <$> recorders (snd (nested_scopes real_length)) !! 0%nat
     = Some "hello".
Proof. repeat split. Qed.

(** ** The color system *)

Lemma in_two_strings (s a b : string) :
  bool_decide (s ∈ [a; b]) = String.eqb s a || String.eqb s b.
Proof.
  destruct (String.eqb_spec s a) as [->|Ha]; simpl.
  - apply bool_decide_eq_true. left.
  - destruct (String.eqb_spec s b) as [->|Hb].
    + apply bool_decide_eq_true. right. left.
    + apply bool_decide_eq_false. intros Hin.
      apply elem_of_cons in Hin as [?|Hin]; [congruence|].
      apply elem_of_cons in Hin as [?|Hin]; [congruence|].
      now apply elem_of_nil in Hin.
Qed.

(** The body of the property follows the precedence order on the color-term
    value once stripped and put in lower case. *)
Lemma colorsystem_body_policy (w : World) :
  colorsystem_body w
  = (Ok (colorsystem_policy (_forced_colorsystem (terminal w))
           (environ w !! "NO_COLOR") (lower (strip (color_term_of w)))), w).
Proof.
  unfold colorsystem_body, colorsystem_policy, forced_colorsystem, getenv,
    getenv_or, color_term_of, self, bind, gets, ret.
  destruct (_forced_colorsystem (terminal w)) as [c|]; [reflexivity|].
  destruct (environ w !! "NO_COLOR") as [v|]; [reflexivity|].
  rewrite in_two_strings.
  destruct (_ || _); [reflexivity|].
  destruct (String.eqb _ "256color"); reflexivity.
Qed.

(** A read with an empty slot runs the body and fills the slot. *)
Lemma colorsystem_empty_slot (w : World) :
  colorsystem_slot (terminal w) = None ->
  colorsystem w
  = (Ok (colorsystem_policy (_forced_colorsystem (terminal w))
           (environ w !! "NO_COLOR") (lower (strip (color_term_of w)))),
     with_terminal
       (with_slot
          (Some (colorsystem_policy (_forced_colorsystem (terminal w))
                   (environ w !! "NO_COLOR") (lower (strip (color_term_of w)))))
          (terminal w)) w).
Proof.
  intros Hslot. unfold colorsystem. unfold bind at 1. unfold self, gets at 1.
  rewrite Hslot. unfold bind at 1. now rewrite colorsystem_body_policy.
Qed.

(** C1, amended. A read of [colorsystem] with an empty slot returns the
    override if there is one; otherwise NO_COLOR if the no-color variable is
    set; otherwise TRUE if the color-term value, stripped of surrounding
    white space and put in lower case, is 24bit or truecolor; otherwise
    EIGHT_BIT if that is 256color; otherwise STANDARD. An unset color-term
    variable counts as the empty text. Nothing is raised and nothing but
    the slot of the terminal changes. *)
Theorem colorsystem_resolves (w : World) :
  colorsystem_slot (terminal w) = None ->
  fst (colorsystem w)
  = Ok (colorsystem_policy (_forced_colorsystem (terminal w))
          (environ w !! "NO_COLOR") (lower (strip (color_term_of w))))
  /\ snd (colorsystem w)
     = with_terminal
         (with_slot
            (Some (colorsystem_policy (_forced_colorsystem (terminal w))
                     (environ w !! "NO_COLOR")
                     (lower (strip (color_term_of w)))))
            (terminal w)) w.
Proof.
  intros Hslot. now rewrite (colorsystem_empty_slot w Hslot).
Qed.

Lemma colorsystem_resolves_witness :
  colorsystem_slot (terminal (initial_world {["COLORTERM" := " 256Color "]} false ""))
  = None
  /\ fst (colorsystem (initial_world {["COLORTERM" := " 256Color "]} false ""))
     = Ok EIGHT_BIT.
Proof.
  split; [reflexivity|].
  destruct (colorsystem_resolves
              (initial_world {["COLORTERM" := " 256Color "]} false "")
              eq_refl) as [Hvalue _].
  exact Hvalue.
Defined.

(** C1 as stated: the hints are compared with the color-term value as the
    environment holds it. A value in mixed case is a true-color hint for the
    code and none for that reading. *)
Lemma colorsystem_raw_value_fails :
  ~ (forall w : World,
       colorsystem_slot (terminal w) = None ->
       fst (colorsystem w)
       = Ok (colorsystem_policy (_forced_colorsystem (terminal w))
               (environ w !! "NO_COLOR") (color_term_of w))).
Proof.
  intros H. specialize (H mixed_case_world eq_refl).
  vm_compute in H. discriminate H.
Qed.

(** A filled slot is returned as it is. *)
Lemma colorsystem_memoized (w : World) (c : ColorSystem) :
  colorsystem_slot (terminal w) = Some c -> colorsystem w = (Ok c, w).
Proof.
  intros Hslot. unfold colorsystem. unfold bind at 1. unfold self, gets at 1.
  now rewrite Hslot.
Qed.

(** The setter leaves the slot empty, so the next read follows the new
    override. *)
Lemma set_forced_colorsystem_invalidates (new : option ColorSystem) (w : World) :
  exists w',
    set_forced_colorsystem new w = (Ok tt, w')
    /\ colorsystem_slot (terminal w') = None
    /\ _forced_colorsystem (terminal w') = new
    /\ environ w' = environ w.
Proof.
  unfold set_forced_colorsystem. unfold bind at 1. simpl.
  set (w1 := with_terminal (with_forced new (terminal w)) w).
  unfold bind at 1.
  destruct (colorsystem_slot (terminal w1)) as [c|] eqn:Hslot.
  - rewrite (colorsystem_memoized w1 c Hslot). eexists. split; [reflexivity|].
    repeat split.
  - rewrite (colorsystem_empty_slot w1 Hslot). eexists. split; [reflexivity|].
    repeat split.
Qed.

(** C4. With the override variable set to [truecolor], which is no member
    name, [_get_env_colorsys] raises [KeyError]: the clause of its [try]
    statement catches [NameError] only. The exception leaves
    [Terminal.__init__]. *)
Theorem misnamed_override_raises :
  _get_env_colorsys misnamed_override_world
  = (Raise (KeyError "truecolor"), misnamed_override_world)
  /\ fst (__init__ misnamed_override_world) = Raise (KeyError "truecolor").
Proof. split; reflexivity. Qed.

(** Every name outside the four member names does the same. *)
Lemma _get_env_colorsys_unknown (w : World) (name : string) :
  environ w !! "PTG_COLORSYS" = Some name ->
  ColorSystemOps.member_map !! name = None ->
  _get_env_colorsys w = (Raise (KeyError name), w).
Proof.
  intros Henv Hname.
  unfold _get_env_colorsys, getenv, try_except, lift, bind, gets.
  rewrite Henv. unfold ColorSystemOps.getitem. now rewrite Hname.
Qed.

Lemma _get_env_colorsys_member (w : World) (name : string) (c : ColorSystem) :
  environ w !! "PTG_COLORSYS" = Some name ->
  ColorSystemOps.member_map !! name = Some c ->
  _get_env_colorsys w = (Ok (Some c), w).
Proof.
  intros Henv Hname.
  unfold _get_env_colorsys, getenv, try_except, lift, bind, gets.
  rewrite Henv. unfold ColorSystemOps.getitem. now rewrite Hname.
Qed.

(** ** The pixel size *)

(** C5. On an interactive terminal that answers the query with
    [ESC[4;abc;deft], [_get_pixel_size] raises [ValueError]: the answer has
    its separator, and [int] refuses the fields. *)
Theorem garbled_reply_raises :
  fst (_get_pixel_size garbled_reply_world)
  = Raise (ValueError "invalid literal for int() with base 10").
Proof. reflexivity. Qed.

Lemma _get_pixel_size_not_a_tty (w : World) :
  stdout_isatty w = false -> _get_pixel_size w = (Ok (0, 0)%Z, w).
Proof.
  intros Htty. unfold _get_pixel_size. unfold bind at 1. unfold gets at 1.
  now rewrite Htty.
Qed.

Lemma _get_pixel_size_no_separator (w : World) :
  stdout_isatty w = true ->
  contains ";" (slice 4 1 (getch w (getch_calls w))) = false ->
  fst (_get_pixel_size w) = Ok (0, 0)%Z.
Proof.
  intros Htty Hsep.
  unfold _get_pixel_size, read_getch, log, modify, bind, gets, ret.
  rewrite Htty. simpl. now rewrite Hsep.
Qed.

Example _get_pixel_size_answer :
  fst (_get_pixel_size (initial_world ∅ true (ESC ++ "[4;600;800t")))
  = Ok (800, 600)%Z.
Proof. reflexivity. Qed.

Example _get_pixel_size_three_fields :
  fst (_get_pixel_size (initial_world ∅ true (ESC ++ "[4;1;2;3t")))
  = Ok (2, 1)%Z.
Proof. reflexivity. Qed.

(** *** The answer to the query, when it is well formed *)

Lemma length_append (a b : string) :
  String.length (a ++ b) = (String.length a + String.length b)%nat.
Proof.
  induction a as [|c a IH]; [reflexivity|].
  rewrite append_cons. simpl. now rewrite IH.
Qed.

Lemma substring_prefix (a b : string) :
  substring 0 (String.length a) (a ++ b) = a.
Proof.
  induction a as [|c a IH].
  - simpl. now destruct ("" ++ b).
  - rewrite append_cons. simpl. now rewrite IH.
Qed.

(** The slice of the code drops the four characters of the header and the
    final letter of the answer. *)
Lemma slice_answer (body : string) :
  slice 4 1 (ESC ++ "[4;" ++ body ++ "t") = body.
Proof.
  unfold slice.
  change (ESC ++ "[4;" ++ body ++ "t")
    with (String "027" (String "[" (String "4" (String ";" (body ++ "t"))))).
  cbn [String.length substring].
  rewrite length_append. simpl String.length.
  replace (S (S (S (S (String.length body + 1)))) - 1 - 4)%nat
    with (String.length body) by lia.
  apply substring_prefix.
Qed.

Lemma contains_cons (c : ascii) (s : string) :
  contains ";" (String c s) = Ascii.eqb c ";" || contains ";" s.
Proof.
  change (contains ";" (String c s))
    with (String.prefix ";" (String c s) || contains ";" s).
  now rewrite prefix_single.
Qed.

Lemma contains_separator (a b : string) : contains ";" (a ++ ";" ++ b) = true.
Proof.
  induction a as [|c a IH].
  - change ("" ++ ";" ++ b) with (String ";" b). now rewrite contains_cons.
  - rewrite append_cons, contains_cons, IH. apply orb_true_r.
Qed.

Lemma split_go_cons (c : ascii) (cur s : string) :
  split_go ";" 0 cur (String c s)
  = if Ascii.eqb c ";" then cur :: split_go ";" 0 "" s
    else split_go ";" 0 (cur ++ String c "") s.
Proof.
  change (split_go ";" 0 cur (String c s))
    with (if String.prefix ";" (String c s)
          then cur :: split_go ";" 0 "" s
          else split_go ";" 0 (cur ++ String c "") s).
  now rewrite prefix_single.
Qed.

Lemma split_go_field (a : string) :
  forall cur rest,
    contains ";" a = false ->
    split_go ";" 0 cur (a ++ rest) = split_go ";" 0 (cur ++ a) rest.
Proof.
  induction a as [|c a IH]; intros cur rest Hfree.
  - now rewrite append_empty_r.
  - rewrite contains_cons in Hfree. apply orb_false_iff in Hfree as [Hc Hfree].
    rewrite append_cons, split_go_cons, Hc, (IH _ _ Hfree).
    now rewrite append_assoc.
Qed.

(** Two fields without a separator in them, around one separator. *)
Lemma split_two_fields (a b : string) :
  contains ";" a = false -> contains ";" b = false ->
  split ";" (a ++ ";" ++ b) = [a; b].
Proof.
  intros Ha Hb. unfold split.
  rewrite (split_go_field a "" _ Ha).
  change ("" ++ a) with a. change (";" ++ b) with (String ";" b).
  rewrite split_go_cons. simpl.
  rewrite <- (append_empty_r b) at 1.
  rewrite (split_go_field b "" "" Hb). reflexivity.
Qed.

(** On an interactive terminal, an answer made of two integers around one
    separator gives the width, which comes second, and the height. *)
Lemma _get_pixel_size_parses (w : World) (first second : string)
  (height width : Z) :
  stdout_isatty w = true ->
  getch w (getch_calls w) = ESC ++ "[4;" ++ first ++ ";" ++ second ++ "t" ->
  contains ";" first = false -> contains ";" second = false ->
  int first = Ok height -> int second = Ok width ->
  fst (_get_pixel_size w) = Ok (width, height).
Proof.
  intros Htty Hreply Hfirst Hsecond Hheight Hwidth.
  unfold _get_pixel_size, read_getch, log, modify, bind, gets, ret.
  rewrite Htty. simpl. rewrite Hreply.
  replace (ESC ++ "[4;" ++ first ++ ";" ++ second ++ "t")
    with (ESC ++ "[4;" ++ (first ++ ";" ++ second) ++ "t")
    by (now rewrite !append_assoc).
  rewrite slice_answer, contains_separator.
  rewrite (split_two_fields _ _ Hfirst Hsecond).
  simpl. unfold bind, lift, ret. now rewrite Hheight, Hwidth.
Qed.

(** ** Replay *)

Lemma Qlt_bool_iff (a b : Q) : Qlt_bool a b = true <-> (a < b)%Q.
Proof.
  unfold Qlt_bool. rewrite negb_true_iff.
  split.
  - intros H. apply Qnot_le_lt. intros Hle.
    apply Qle_bool_iff in Hle. congruence.
  - intros H. destruct (Qle_bool b a) eqn:Hle; [|reflexivity].
    apply Qle_bool_iff in Hle. exfalso. exact (Qlt_not_le _ _ H Hle).
Qed.

Lemma pause_not_negative (last_time delay : Q) :
  Qle_bool last_time delay = true -> Qlt_bool (delay - last_time) 0 = false.
Proof.
  intros H. apply Qle_bool_iff in H.
  unfold Qlt_bool. apply negb_false_iff. apply Qle_bool_iff.
  apply Qle_minus_iff in H. exact H.
Qed.

Section Replay.
Variable real_length : string -> Z.



End Replay.

Lemma slept_app (log1 log2 : list Event) :
  slept (log1 ++ log2) = (slept log1 ++ slept log2)%list.
Proof. apply omap_app. Qed.

Lemma chunks_written_app (log1 log2 : list Event) :
  chunks_written (log1 ++ log2)
  = (chunks_written log1 ++ chunks_written log2)%list.
Proof. apply omap_app. Qed.

Lemma slept_write_log (data : string) : slept (write_log data) = [].
Proof. unfold write_log. now destruct (contains _ data). Qed.

Lemma chunks_written_write_log (data : string) :
  chunks_written (write_log data) = [data].
Proof. unfold write_log. now destruct (contains _ data). Qed.

(** The calls of [time.sleep] of a replay are the pauses of the recording. *)
Lemma slept_replay_log (entries : list (string * Q)) (last_time : Q) :
  slept (replay_log last_time entries) = pauses (last_time :: map snd entries).
Proof.
  revert last_time.
  induction entries as [|[data delay] entries IH]; intros last_time.
  - reflexivity.
  - simpl replay_log. rewrite !slept_app, slept_write_log, IH.
    simpl. now destruct (Qlt_bool 0 last_time).
Qed.

(** The chunks go to the stream in the order of the recording. *)
Lemma chunks_written_replay_log (entries : list (string * Q)) (last_time : Q) :
  chunks_written (replay_log last_time entries) = map fst entries.
Proof.
  revert last_time.
  induction entries as [|[data delay] entries IH]; intros last_time.
  - reflexivity.
  - simpl replay_log.
    rewrite !chunks_written_app, chunks_written_write_log, IH.
    now destruct (Qlt_bool 0 last_time).
Qed.

Lemma pauses_from_zero (elapsed : list Q) :
  pauses (0%Q :: elapsed) = pauses elapsed.
Proof. destruct elapsed; reflexivity. Qed.

Lemma pauses_not_negative (elapsed : list Q) :
  nondecreasing elapsed = true -> Forall (fun d => (0 <= d)%Q) (pauses elapsed).
Proof.
  induction elapsed as [|a elapsed IH]; intros Hsorted.
  - constructor.
  - destruct elapsed as [|b elapsed]; [constructor|].
    simpl in Hsorted. apply andb_true_iff in Hsorted as [Hle Hsorted].
    change (pauses (a :: b :: elapsed))
      with ((if Qlt_bool 0 a then [(b - a)%Q] else []) ++ pauses (b :: elapsed))%list.
    apply Forall_app. split; [|now apply IH].
    destruct (Qlt_bool 0 a); constructor; [|constructor].
    apply Qle_bool_iff in Hle. now apply Qle_minus_iff in Hle.
Qed.


Lemma nondecreasing_adjacent (elapsed : list Q) (j : nat) (a b : Q) :
  nondecreasing elapsed = true ->
  elapsed !! j = Some a -> elapsed !! S j = Some b ->
  Qle_bool a b = true.
Proof.
  revert j. induction elapsed as [|x elapsed IH]; intros j Hsorted Ha Hb.
  - discriminate Ha.
  - destruct elapsed as [|y elapsed]; [discriminate Hb|].
    simpl in Hsorted. apply andb_true_iff in Hsorted as [Hxy Hsorted].
    destruct j as [|j].
    + simpl in Ha, Hb. congruence.
    + exact (IH j Hsorted Ha Hb).
Qed.

Lemma nondecreasing_take (elapsed : list Q) (n : nat) :
  nondecreasing elapsed = true -> nondecreasing (take n elapsed) = true.
Proof.
  revert n. induction elapsed as [|x elapsed IH]; intros n Hsorted.
  - now destruct n.
  - destruct n as [|n]; [reflexivity|].
    destruct elapsed as [|y elapsed]; [now destruct n|].
    simpl in Hsorted. apply andb_true_iff in Hsorted as [Hxy Hsorted].
    specialize (IH n Hsorted).
    destruct n as [|n]; [reflexivity|].
    simpl in *. now rewrite Hxy, IH.
Qed.

Section ReplayAnyRecorder.
Variable real_length : string -> Z.
Variable l : nat.

Lemma replay_loop_reads (i : nat) (w : World) :
  recorders w !! l ≫= (fun r => Recorder.recording r !! i)
  = recording_at l w !! i.
Proof. unfold recording_at. now destruct (recorders w !! l). Qed.

(** A flushing write appends to the entries of a recorder or leaves them. *)
Lemma write_flush_extends (data : string) (w : World) :
  fst (write real_length data None true w) = Ok tt
  /\ events (snd (write real_length data None true w))
     = (events w ++ write_log data)%list
  /\ exists extra,
       recording_at l (snd (write real_length data None true w))
       = (recording_at l w ++ extra)%list.
Proof.
  unfold write, write_log, clear_stream, when, recorder_write, time, log,
    update_self, self, modify, bind, gets, ret.
  destruct (contains (ESC ++ "[2J") data); simpl;
    destruct (_recorder (terminal w)) as [l'|] eqn:Hrec; simpl;
    rewrite <- ?app_assoc; (split; [reflexivity|]); (split; [reflexivity|]);
    unfold recording_at; simpl;
    try (exists []; now rewrite app_nil_r);
    (destruct (decide (l' = l)) as [->|Hne];
     [ rewrite list_lookup_alter_eq;
       destruct (recorders w !! l) as [r|]; simpl; eauto;
       exists []; reflexivity
     | rewrite list_lookup_alter_ne by exact Hne;
       exists []; now rewrite app_nil_r ]).
Qed.

Lemma sleep_step (last_time delay : Q) (w : World) :
  (Qlt_bool 0 last_time = true -> Qle_bool last_time delay = true) ->
  when (Qlt_bool 0 last_time) (time_sleep (delay - last_time)) w
  = (Ok tt,
     with_events
       (events w
        ++ (if Qlt_bool 0 last_time then [sleep (delay - last_time)%Q] else []))
       w).
Proof.
  intros Hle. unfold when, time_sleep.
  destruct (Qlt_bool 0 last_time).
  - now rewrite (pause_not_negative _ _ (Hle eq_refl)).
  - unfold ret. rewrite app_nil_r. now destruct w.
Qed.

(** One round of the loop. *)
Lemma replay_loop_round (m i : nat) (last_time delay : Q) (data : string)
  (w : World) :
  recording_at l w !! i = Some (data, delay) ->
  (Qlt_bool 0 last_time = true -> Qle_bool last_time delay = true) ->
  replay_loop real_length (S m) l i last_time w
  = replay_loop real_length m l (S i) delay
      (after_round real_length data delay last_time w).
Proof.
  intros Hread Hle. simpl replay_loop.
  unfold bind at 1. unfold gets at 1.
  rewrite replay_loop_reads, Hread.
  unfold after_round. unfold bind at 1. rewrite (sleep_step _ _ _ Hle).
  simpl snd. unfold bind at 1.
  destruct (write_flush_extends data
              (with_events
                 (events w ++
                  (if Qlt_bool 0 last_time
                   then [sleep (delay - last_time)%Q] else [])) w))
    as (Hok & _ & _).
  destruct (write real_length data None true _) as [res w2].
  simpl in Hok. now rewrite Hok.
Qed.

Lemma after_round_facts (i : nat) (last_time delay : Q) (data : string)
  (w : World) :
  (Qlt_bool 0 last_time = true -> Qle_bool last_time delay = true) ->
  events (after_round real_length data delay last_time w)
  = (events w
     ++ (if Qlt_bool 0 last_time then [sleep (delay - last_time)%Q] else [])
     ++ write_log data)%list
  /\ exists extra,
       recording_at l (after_round real_length data delay last_time w)
       = (recording_at l w ++ extra)%list.
Proof.
  intros Hle. unfold after_round. rewrite (sleep_step _ _ _ Hle). simpl snd.
  destruct (write_flush_extends data
              (with_events
                 (events w ++
                  (if Qlt_bool 0 last_time
                   then [sleep (delay - last_time)%Q] else [])) w))
    as (_ & Hlog & extra & Hrec).
  split.
  - rewrite Hlog. simpl. now rewrite <- app_assoc.
  - exists extra. exact Hrec.
Qed.

(** The loop run for [n] rounds, on a recorder whose elapsed times never go
    down while it runs. *)
Lemma replay_loop_any (n : nat) :
  forall (i : nat) (last_time : Q) (w : World),
    follows l i last_time w ->
    (forall m, (m <= n)%nat ->
       nondecreasing
         (map snd
            (recording_at l
               (snd (replay_loop real_length m l i last_time w)))) = true) ->
    exists (done : bool) (w' : World) (extra : list (string * Q)),
      replay_loop real_length n l i last_time w = (Ok done, w')
      /\ recording_at l w' = (recording_at l w ++ extra)%list
      /\ events w'
         = (events w
            ++ replay_log last_time (take n (drop i (recording_at l w'))))%list.
Proof.
  induction n as [|n IH]; intros i last_time w Hfollows Hsorted.
  - exists false, w, []. simpl. rewrite !app_nil_r. auto.
  - destruct (recording_at l w !! i) as [[data delay]|] eqn:Hread.
    + assert (Hle : Qlt_bool 0 last_time = true ->
                    Qle_bool last_time delay = true).
      { intros Hpos. destruct i as [|j].
        - simpl in Hfollows. subst last_time. discriminate Hpos.
        - destruct Hfollows as [data' Hprev].
          pose proof (Hsorted 0%nat ltac:(lia)) as Hnow. simpl in Hnow.
          refine (nondecreasing_adjacent _ j _ _ Hnow _ _).
          + rewrite list_lookup_fmap, Hprev. reflexivity.
          + rewrite list_lookup_fmap, Hread. reflexivity. }
      destruct (after_round_facts i last_time delay data w Hle)
        as (Hlog1 & extra1 & Hrec1).
      set (w1 := after_round real_length data delay last_time w) in *.
      destruct (IH (S i) delay w1) as (done & w' & extra & Hrun & Hrec & Hlog).
      { exists data. rewrite Hrec1. now apply lookup_app_l_Some. }
      { intros m Hm. unfold w1.
        rewrite <- (replay_loop_round m i last_time delay data w Hread Hle).
        apply Hsorted. lia. }
      exists done, w', (extra1 ++ extra)%list.
      rewrite (replay_loop_round n i last_time delay data w Hread Hle).
      fold w1. split; [exact Hrun|]. split.
      * now rewrite Hrec, Hrec1, <- app_assoc.
      * assert (Hread' : recording_at l w' !! i = Some (data, delay)).
        { rewrite Hrec, Hrec1. now apply lookup_app_l_Some, lookup_app_l_Some. }
        rewrite (drop_S _ _ _ Hread'), firstn_cons. simpl replay_log.
        rewrite Hlog, Hlog1. now rewrite <- !app_assoc.
    + exists true, w, []. simpl replay_loop.
      unfold bind at 1. unfold gets at 1.
      rewrite replay_loop_reads, Hread.
      rewrite app_nil_r. split; [reflexivity|]. split; [reflexivity|].
      apply lookup_ge_None in Hread. rewrite drop_ge by exact Hread.
      rewrite take_nil. simpl. now rewrite app_nil_r.
Qed.

End ReplayAnyRecorder.

(** C10. Take a recorder whose elapsed times never go down, at any round
    of its replay (a recorder that is being recorded into grows while it is
    replayed). Whatever the number [n] of rounds given to the loop, [replay]
    raises nothing and its calls of [time.sleep] are the pauses of the
    entries replayed: none before the first entry, none after an entry
    whose elapsed time is not positive, and the difference of the two
    elapsed times otherwise; none of them is negative. *)
Theorem replay_sleeps_are_not_negative (real_length : string -> Z)
  (l n : nat) (w : World) :
  (forall m, (m <= n)%nat ->
     nondecreasing
       (map snd (recording_at l (snd (replay real_length m l w)))) = true) ->
  exists (done : bool) (w' : World) (new : list Event),
    replay real_length n l w = (Ok done, w')
    /\ events w' = (events w ++ new)%list
    /\ slept new = pauses (map snd (take n (recording_at l w')))
    /\ Forall (fun d => (0 <= d)%Q) (slept new).
Proof.
  intros Hsorted.
  destruct (replay_loop_any real_length l n 0%nat 0%Q w eq_refl Hsorted)
    as (done & w' & extra & Hrun & Hrec & Hlog).
  rewrite drop_0 in Hlog.
  assert (Hslept : slept (replay_log 0 (take n (recording_at l w')))
                   = pauses (map snd (take n (recording_at l w')))).
  { now rewrite slept_replay_log, pauses_from_zero. }
  exists done, w', (replay_log 0 (take n (recording_at l w'))).
  split; [exact Hrun|]. split; [exact Hlog|]. split; [exact Hslept|].
  rewrite Hslept. apply pauses_not_negative.
  rewrite <- firstn_map. apply nondecreasing_take.
  specialize (Hsorted n (Nat.le_refl n)). unfold replay in Hrun.
  unfold replay in Hsorted. now rewrite Hrun in Hsorted.
Qed.

Lemma replay_sleeps_are_not_negative_witness :
  (forall m, (m <= 4)%nat ->
     nondecreasing
       (map snd
          (recording_at 0
             (snd (replay (fun s => Z.of_nat (String.length s)) m 0
                     (world_with [paced_recording]))))) = true)
  /\ exists (done : bool) (w' : World) (new : list Event),
       replay (fun s => Z.of_nat (String.length s)) 4 0
         (world_with [paced_recording])
       = (Ok done, w')
       /\ events w' = (events (world_with [paced_recording]) ++ new)%list
       /\ slept new = pauses (map snd (take 4 (recording_at 0 w')))
       /\ Forall (fun d => (0 <= d)%Q) (slept new).
Proof.
  assert (Hsorted : forall m, (m <= 4)%nat ->
     nondecreasing
       (map snd
          (recording_at 0
             (snd (replay (fun s => Z.of_nat (String.length s)) m 0
                     (world_with [paced_recording]))))) = true).
  { intros m Hm.
    do 5 (destruct m as [|m]; [reflexivity|]). lia. }
  split; [exact Hsorted|].
  exact (replay_sleeps_are_not_negative
           (fun s => Z.of_nat (String.length s)) 0 4
           (world_with [paced_recording]) Hsorted).
Defined.

(** C2. The replay of the recording with elapsed times 0, 0.05 and 0.12
    writes the three chunks in order and sleeps once, for 0.07 seconds,
    before the third: the pause of 0.05 seconds before the second chunk is
    left out, because the elapsed time of the first entry is not above
    zero. *)
Theorem replay_skips_pause_after_zero (real_length : string -> Z) :
  fst (replay real_length 4 0 (world_with [paced_recording])) = Ok true
  /\ events (snd (replay real_length 4 0 (world_with [paced_recording])))
     = [stream_write "a"; stream_flush; stream_write "b"; stream_flush;
        sleep ((12 # 100) - (5 # 100)); stream_write "c"; stream_flush]
  /\ map Qred
       (slept (events (snd (replay real_length 4 0 (world_with [paced_recording])))))
     = [7 # 100].
Proof. repeat split. Qed.

(** With a first entry above zero the two pauses are there. *)
Example replay_two_pauses (real_length : string -> Z) :
  map Qred
    (slept (events (snd (replay real_length 4 0
       (world_with
          [Recorder.mk [("a", 1 # 100); ("b", 6 # 100); ("c", 13 # 100)] 0])))))
  = [1 # 20; 7 # 100].
Proof. reflexivity. Qed.

(** *** Recordings whose entries all come after the start *)

(** When every entry but the last has a positive elapsed time, there is a
    pause before every entry after the first. *)
Lemma pauses_all_positive (elapsed : list Q) :
  forallb (Qlt_bool 0) (removelast elapsed) = true ->
  pauses elapsed = differences elapsed.
Proof.
  induction elapsed as [|a elapsed IH]; intros Hpositive; [reflexivity|].
  destruct elapsed as [|b elapsed]; [reflexivity|].
  change (removelast (a :: b :: elapsed))
    with (a :: removelast (b :: elapsed)) in Hpositive.
  simpl forallb in Hpositive.
  apply andb_true_iff in Hpositive as [Ha Hrest].
  change (pauses (a :: b :: elapsed))
    with ((if Qlt_bool 0 a then [(b - a)%Q] else []) ++ pauses (b :: elapsed))%list.
  rewrite Ha, (IH Hrest). reflexivity.
Qed.

(** *** Replay of the recorder that is being recorded into *)

(** Each write of the replay adds an entry to the recorder, so the loop
    goes on for as long as it is given rounds; with a clock that moves
    forward the pauses are those between the growing entries. *)
Example replay_active_recorder (real_length : string -> Z) :
  fst (replay real_length 3 0
         (recording_world (fun n => inject_Z (Z.of_nat n + 2))))
  = Ok false
  /\ map Qred
       (slept (events (snd (replay real_length 3 0
          (recording_world (fun n => inject_Z (Z.of_nat n + 2)))))))
     = [1 # 1; 1 # 1]
  /\ map (fun e => Qred (snd e))
       (recording_at 0 (snd (replay real_length 3 0
          (recording_world (fun n => inject_Z (Z.of_nat n + 2))))))
     = [1 # 1; 2 # 1; 3 # 1; 4 # 1].
Proof. repeat split. Qed.

(** With a clock that has gone back, the entry added by the first write is
    older than the one before it, and the pause is refused. *)
Example replay_active_recorder_clock_back (real_length : string -> Z) :
  fst (replay real_length 3 0 (recording_world (fun _ => 1 # 2)))
  = Raise (ValueError "sleep length must be non-negative")
  /\ nondecreasing
       (map snd
          (recording_at 0 (snd (replay real_length 1 0
             (recording_world (fun _ => 1 # 2))))))
     = false.
Proof. repeat split. Qed.

(** ** The highlighter *)

Import RegexHighlighter Highlight.

(** C7. The highlighter built from the styles [num] for [\d+] and [word]
    for [[a-z]+] with the prefix [x.] turns [ab12] into
    [[x.word]ab[/x.word][x.num]12[/x.num]], whatever [RE_MARKUP] finds. *)
Theorem scenario_ab12 (markup_found : string -> bool) :
  (hl ← scenario; fst <$> __call__ markup_found hl "ab12" true)
  = Some "[x.word]ab[/x.word][x.num]12[/x.num]".
Proof. reflexivity. Qed.

Example scenario_pattern :
  combined [("num", "\d+"); ("word", "[a-z]+")]
  = "(?P<num>\d+)|(?P<word>[a-z]+)"
  /\ (Re.groupindex <$> (_pattern <$> scenario))
     = Some [("num", 1%nat); ("word", 2%nat)].
Proof. split; reflexivity. Qed.

Example scenario_uncached_ab12 (markup_found : string -> bool) :
  (hl ← scenario; uncached markup_found hl "ab12")
  = Some "[x.word]ab[/x.word][x.num]12[/x.num]".
Proof. reflexivity. Qed.

(** *** Templates and brackets *)

Lemma brace_free_app (s t : string) :
  brace_free (s ++ t) = brace_free s && brace_free t.
Proof.
  induction s as [|c s IH]; [reflexivity|].
  rewrite append_cons. simpl. rewrite IH. now rewrite andb_assoc.
Qed.

Lemma format_go_plain (s rest arg : string) (used : bool) :
  brace_free s = true ->
  format_go used arg (s ++ rest) = String.app s <$> format_go used arg rest.
Proof.
  induction s as [|c s IH]; intros Hfree.
  - change ("" ++ rest) with rest. now destruct (format_go used arg rest).
  - rewrite append_cons. simpl in Hfree.
    apply andb_true_iff in Hfree as [Hc Hfree].
    apply negb_true_iff, orb_false_iff in Hc as [Hopen Hclose].
    simpl. rewrite Hopen, Hclose, (IH Hfree).
    now destruct (format_go used arg rest).
Qed.

(** On a tag without braces, the template of [_insert_style] formats to the
    tagged content. *)
Lemma format_style (tag content : string) :
  brace_free tag = true ->
  format ("[" ++ tag ++ "]{}[/" ++ tag ++ "]") content
  = Some (tagged tag content).
Proof.
  intros Hfree. unfold format, tagged.
  replace ("[" ++ tag ++ "]{}[/" ++ tag ++ "]")
    with (("[" ++ tag ++ "]") ++ "{}" ++ ("[/" ++ tag ++ "]") ++ "").
  2:{ rewrite !append_assoc, append_empty_r. reflexivity. }
  rewrite format_go_plain.
  2:{ rewrite !brace_free_app, Hfree. reflexivity. }
  change (format_go false content ("{}" ++ ("[/" ++ tag ++ "]") ++ ""))
    with (String.app content
            <$> format_go true content (("[/" ++ tag ++ "]") ++ "")).
  rewrite format_go_plain.
  2:{ rewrite !brace_free_app, Hfree. reflexivity. }
  simpl. rewrite append_empty_r. now rewrite !append_assoc.
Qed.

(** [replace] of the opening bracket by its escaped form works character by
    character. *)
Lemma replace_bracket (s : string) : replace "[" "\[" s = escape_brackets s.
Proof.
  unfold replace.
  induction s as [|c s IH]; [reflexivity|].
  change (replace_go "[" "\[" 0 (String c s))
    with (if String.prefix "[" (String c s)
          then "\[" ++ replace_go "[" "\[" 0 s
          else String c (replace_go "[" "\[" 0 s)).
  rewrite prefix_single, IH. reflexivity.
Qed.

(** *** The markup put around a match *)

Lemma _insert_style_named (markup_found : string -> bool)
  (prefix name content : string) (m : Re.Match) :
  Re.lastgroup m = Some name ->
  Re.groupdict m !! name = Some (Some content) ->
  brace_free (prefix ++ name) = true ->
  _insert_style markup_found prefix m
  = Some (tagged (prefix ++ name)
            (if String.eqb name "str" && markup_found content
             then escape_brackets content
             else content)).
Proof.
  intros Hlast Hdict Hfree. unfold _insert_style.
  rewrite Hlast. simpl str_of_option. rewrite Hdict. simpl mjoin.
  destruct (String.eqb_spec name "str") as [->|Hname].
  - rewrite bool_decide_eq_true_2 by reflexivity. simpl.
    destruct (markup_found content); simpl;
      rewrite ?replace_bracket; now apply format_style.
  - rewrite bool_decide_eq_false_2 by congruence. simpl.
    now apply format_style.
Qed.

(** C9, amended. A match of the style [str] whose content has at least one
    match of [RE_MARKUP] is put between its tags with a backslash before
    every opening bracket of the content; the content of a match of the
    style [str] in which [RE_MARKUP] finds nothing, and of a match of any
    other style, is put between the tags as it is. *)
Theorem _insert_style_escapes (markup_found : string -> bool)
  (prefix name content : string) (m : Re.Match) :
  Re.lastgroup m = Some name ->
  Re.groupdict m !! name = Some (Some content) ->
  brace_free (prefix ++ name) = true ->
  _insert_style markup_found prefix m
  = Some (tagged (prefix ++ name)
            (if String.eqb name "str"
             then if markup_found content
                  then escape_brackets content
                  else content
             else content)).
Proof.
  intros Hlast Hdict Hfree.
  rewrite (_insert_style_named markup_found prefix name content m
             Hlast Hdict Hfree).
  now destruct (String.eqb name "str").
Qed.

Lemma _insert_style_escapes_witness :
  Re.lastgroup tag_in_string_match = Some "str"
  /\ Re.groupdict tag_in_string_match !! "str" = Some (Some "'a[0]'")
  /\ brace_free ("code." ++ "str") = true
  /\ _insert_style closed_tag_found "code." tag_in_string_match
     = Some "[code.str]'a\[0]'[/code.str]".
Proof.
  split; [reflexivity|]. split; [reflexivity|]. split; [reflexivity|].
  apply (_insert_style_escapes closed_tag_found "code." "str" "'a[0]'"
           tag_in_string_match); reflexivity.
Defined.

(** C9 as stated: every match of the style [str] with an opening bracket in
    its content has its brackets escaped, whatever [RE_MARKUP] is. With a
    search for bracketed names, the content ['b['] has a bracket and no
    tag, and the code emits it as it is. *)
Lemma str_bracket_without_tag_is_kept :
  ~ (forall (markup_found : string -> bool) (prefix content : string)
       (m : Re.Match),
       Re.lastgroup m = Some "str" ->
       Re.groupdict m !! "str" = Some (Some content) ->
       brace_free prefix = true ->
       contains "[" content = true ->
       _insert_style markup_found prefix m
       = Some (tagged (prefix ++ "str") (escape_brackets content))).
Proof.
  intros H.
  specialize (H closed_tag_found "code." "'b['" open_bracket_match
                eq_refl eq_refl eq_refl eq_refl).
  vm_compute in H. discriminate H.
Qed.

(** The same through a call: the first literal has a tag and is escaped,
    the second has a lone bracket and is not. *)
Example quoting_brackets :
  (hl ← quoting;
   fst <$> __call__ closed_tag_found hl "x = 'a[0]' + 'b['" true)
  = Some "[code.word]x[/code.word] = [code.str]'a\[0]'[/code.str] + [code.str]'b['[/code.str]".
Proof. reflexivity. Qed.

(** *** The matcher keeps the last group among the closed ones *)

Lemma closed_last_none : closed_last Re.no_captures.
Proof. intros i Hi. discriminate Hi. Qed.

Lemma closed_last_close (i : nat) (text : list ascii) (c : Re.captures) :
  closed_last (Re.close_group i text c).
Proof.
  intros j Hj. simpl in Hj. injection Hj as <-.
  unfold Re.group_text. simpl. rewrite Nat.eqb_refl. simpl. eauto.
Qed.

Lemma rounds_closed_last
  (step : list ascii -> Re.captures ->
          (list ascii -> Re.captures -> Re.outcome) -> Re.outcome)
  (greedy : bool) (k : list ascii -> Re.captures -> Re.outcome) :
  (forall k', keeps_closed_last k' -> keeps_closed_last (fun s c => step s c k')) ->
  keeps_closed_last k ->
  forall n, keeps_closed_last (Re.rounds step greedy k n).
Proof.
  intros Hstep Hk n.
  induction n as [|n IH]; intros s c res Hc Hrun; simpl in Hrun.
  - exact (Hk s c res Hc Hrun).
  - assert (Hagain : keeps_closed_last (fun s0 c0 =>
      step s0 c0 (fun s' c' =>
        if (length s' <? length s)%nat
        then Re.rounds step greedy k n s' c' else None))).
    { apply Hstep. intros s' c' res' Hc' Hres'.
      destruct (length s' <? length s)%nat; [|discriminate].
      exact (IH s' c' res' Hc' Hres'). }
    unfold Re.orelse in Hrun.
    destruct greedy.
    + destruct (step s c _) as [x|] eqn:Hmore.
      * injection Hrun as <-. exact (Hagain s c x Hc Hmore).
      * exact (Hk s c res Hc Hrun).
    + destruct (k s c) as [x|] eqn:Hstop.
      * injection Hrun as <-. exact (Hk s c x Hc Hstop).
      * exact (Hagain s c res Hc Hrun).
Qed.

Lemma run_closed_last (r : Re.regex) :
  forall k, keeps_closed_last k -> keeps_closed_last (fun s c => Re.run r s c k).
Proof.
  induction r as [|accepts|r1 IH1 r2 IH2|r1 IH1 r2 IH2|greedy r IH|i r IH];
    intros k Hk s c res Hc Hrun.
  - exact (Hk s c res Hc Hrun).
  - simpl in Hrun. destruct s as [|a s]; [discriminate|].
    destruct (accepts a); [|discriminate].
    exact (Hk s c res Hc Hrun).
  - exact (IH1 _ (IH2 k Hk) s c res Hc Hrun).
  - simpl in Hrun. unfold Re.orelse in Hrun.
    destruct (Re.run r1 s c k) as [x|] eqn:Hleft.
    + injection Hrun as <-. exact (IH1 k Hk s c x Hc Hleft).
    + exact (IH2 k Hk s c res Hc Hrun).
  - exact (rounds_closed_last (Re.run r) greedy k IH Hk _ s c res Hc Hrun).
  - refine (IH _ _ s c res Hc Hrun).
    intros s' c' res' _ Hres'.
    exact (Hk s' _ res' (closed_last_close _ _ _) Hres').
Qed.

Lemma match_here_closed_last (p : Re.pattern) (must_advance : bool)
  (s rest : list ascii) (c : Re.captures) :
  Re.match_here p must_advance s = Some (rest, c) -> closed_last c.
Proof.
  intros Hrun. unfold Re.match_here in Hrun.
  refine (run_closed_last (Re.body p) _ _ s Re.no_captures (rest, c)
            closed_last_none Hrun).
  intros s' c' res Hc' Hres.
  destruct (must_advance && _); [discriminate|].
  now injection Hres as <-.
Qed.

(** *** Calls return *)

Lemma identifier_char_no_brace (a : ascii) :
  Re.is_identifier_char a = true ->
  Ascii.eqb a "{" || Ascii.eqb a "}" = false.
Proof.
  destruct a as [[] [] [] [] [] [] [] []]; intros H;
    first [reflexivity | discriminate H].
Qed.

Lemma identifier_tail_brace_free (s : string) :
  Re.is_identifier_tail (list_ascii_of_string s) = true -> brace_free s = true.
Proof.
  induction s as [|a s IH]; [reflexivity|].
  simpl. intros H. apply andb_true_iff in H as [Ha Hs].
  now rewrite (identifier_char_no_brace a Ha), (IH Hs).
Qed.

Lemma identifier_brace_free (s : string) :
  Re.is_identifier (list_ascii_of_string s) = true -> brace_free s = true.
Proof.
  intros H. apply identifier_tail_brace_free.
  unfold Re.is_identifier in H.
  destruct (list_ascii_of_string s); [discriminate|].
  now apply andb_true_iff in H as [_ H].
Qed.

Lemma compile_valid_names (source : string) (p : Re.pattern) :
  Re.compile source = Some p ->
  Re.valid_names (map fst (Re.groupindex p)) = true.
Proof.
  unfold Re.compile. intros H.
  destruct (Re.parse_alt _ _ _) as [[[r rest] st]|]; [|discriminate].
  simpl in H. destruct rest; [|discriminate].
  destruct (Re.valid_names (map fst (Re.named st))) eqn:Hvalid; [|discriminate].
  now injection H as <-.
Qed.

Lemma name_of_index_elem (p : Re.pattern) (i : nat) (name : string) :
  Re.name_of_index p i = Some name -> (name, i) ∈ Re.groupindex p.
Proof.
  unfold Re.name_of_index. intros H.
  destruct (List.find _ (Re.groupindex p)) as [[n j]|] eqn:Hfind; [|discriminate].
  injection H as <-. apply find_some in Hfind as [Hin Heq].
  apply Nat.eqb_eq in Heq. simpl in Heq. subst j.
  now apply list_elem_of_In.
Qed.

(** The match objects of a pattern with valid names. *)
Lemma to_match_named_last (p : Re.pattern) (text : list ascii)
  (c : Re.captures) :
  Re.valid_names (map fst (Re.groupindex p)) = true ->
  closed_last c ->
  named_last (Re.to_match p text c).
Proof.
  intros Hvalid Hc name Hlast. simpl in Hlast.
  destruct (Re.lastindex c) as [i|] eqn:Hi; [|discriminate].
  simpl in Hlast. destruct (Hc i Hi) as [content Hcontent].
  exists content. simpl.
  apply elem_of_list_to_map_1.
  - rewrite <- list_fmap_compose.
    apply andb_true_iff in Hvalid as [_ Hnodup].
    now apply bool_decide_eq_true in Hnodup.
  - apply name_of_index_elem in Hlast.
    apply list_elem_of_fmap. exists (name, i). split; [|exact Hlast].
    simpl. now rewrite Hcontent.
Qed.

Lemma to_match_name_brace_free (p : Re.pattern) (text : list ascii)
  (c : Re.captures) (name : string) :
  Re.valid_names (map fst (Re.groupindex p)) = true ->
  Re.lastgroup (Re.to_match p text c) = Some name ->
  brace_free name = true.
Proof.
  intros Hvalid Hlast. simpl in Hlast.
  destruct (Re.lastindex c) as [i|]; [|discriminate].
  apply name_of_index_elem in Hlast.
  apply andb_true_iff in Hvalid as [Hident _].
  rewrite forallb_forall in Hident.
  apply identifier_brace_free, Hident.
  apply in_map_iff. exists (name, i). split; [reflexivity|].
  now apply list_elem_of_In.
Qed.

Lemma _insert_style_returns (markup_found : string -> bool) (prefix : string)
  (m : Re.Match) :
  brace_free prefix = true ->
  (forall name, Re.lastgroup m = Some name -> brace_free name = true) ->
  named_last m ->
  is_Some (_insert_style markup_found prefix m).
Proof.
  intros Hprefix Hname Hnamed.
  destruct (Re.lastgroup m) as [name|] eqn:Hlast.
  - destruct (Hnamed name Hlast) as [content Hcontent].
    rewrite (_insert_style_named markup_found prefix name content m
               Hlast Hcontent).
    + eauto.
    + now rewrite brace_free_app, Hprefix, (Hname name eq_refl).
  - unfold _insert_style. rewrite Hlast.
    rewrite bool_decide_eq_false_2 by discriminate. simpl.
    rewrite format_style; [eauto|].
    now rewrite brace_free_app, Hprefix.
Qed.

Section SubReturns.
Variable p : Re.pattern.
Variable repl : Re.Match -> option string.
Hypothesis repl_returns :
  forall text c, closed_last c -> is_Some (repl (Re.to_match p text c)).

Lemma replaced_returns (must_advance : bool) (s rest : list ascii)
  (c : Re.captures) :
  Re.match_here p must_advance s = Some (rest, c) ->
  is_Some (Re.replaced p repl s rest c).
Proof.
  intros Hmatch. apply repl_returns.
  exact (match_here_closed_last p must_advance s rest c Hmatch).
Qed.

Lemma sub_go_returns (s : list ascii) :
  forall skip, is_Some (Re.sub_go p repl skip s).
Proof.
  induction s as [|a s IH]; intros skip.
  - destruct skip; simpl; [|eauto].
    destruct (Re.match_here p false []) as [[rest c]|] eqn:Hmatch; [|eauto].
    exact (replaced_returns false [] rest c Hmatch).
  - destruct skip as [|skip]; [|exact (IH skip)].
    assert (Hcopy : is_Some (String a <$> Re.sub_go p repl 0 s)).
    { destruct (IH 0%nat) as [tail ->]. simpl. eauto. }
    assert (Hafter : forall must_advance rest c,
      Re.match_here p must_advance (a :: s) = Some (rest, c) ->
      is_Some (out ← Re.replaced p repl (a :: s) rest c;
               tail ← Re.sub_go p repl (length (a :: s) - length rest - 1) s;
               Some (out ++ tail))).
    { intros must_advance rest c Hmatch.
      destruct (replaced_returns must_advance (a :: s) rest c Hmatch) as [out ->].
      destruct (IH (length (a :: s) - length rest - 1)%nat) as [tail ->].
      simpl. eauto. }
    simpl Re.sub_go.
    destruct (Re.match_here p false (a :: s)) as [[rest c]|] eqn:Hmatch;
      [|exact Hcopy].
    destruct (length rest <? S (length s))%nat; [exact (Hafter _ _ _ Hmatch)|].
    destruct (replaced_returns false (a :: s) rest c Hmatch) as [out ->].
    destruct (Re.match_here p true (a :: s)) as [[rest' c']|] eqn:Hmatch'.
    + destruct (Hafter _ _ _ Hmatch') as [tail Htail].
      simpl in *. rewrite Htail. simpl. eauto.
    + destruct Hcopy as [tail ->]. simpl. eauto.
Qed.

End SubReturns.

(** *** The cache *)

Section Cache.
Variable markup_found : string -> bool.

Lemma uncached_sub (hl : t) (text : string) :
  uncached markup_found hl text
  = Re.sub (_pattern hl) (_insert_style markup_found (prefix hl)) text.
Proof.
  unfold uncached, __call__.
  now destruct (Re.sub _ _ text).
Qed.

(** A call that does not find its text in the cache, or does not look for
    it, computes the text and stores it. *)
Lemma __call___miss (hl : t) (text : string) (cache : bool) :
  cache = false \/ _highlight_cache hl !! text = None ->
  __call__ markup_found hl text cache
  = (out ← uncached markup_found hl text;
     Some (out, mk (styles hl) (prefix hl) (_pattern hl)
                  (<[text := out]> (_highlight_cache hl)))).
Proof.
  intros Hmiss. rewrite uncached_sub. unfold __call__.
  destruct Hmiss as [->|Hnone]; [reflexivity|].
  destruct cache; [|reflexivity]. now rewrite Hnone.
Qed.

Lemma __call___hit (hl : t) (text out : string) :
  _highlight_cache hl !! text = Some out ->
  __call__ markup_found hl text true = Some (out, hl).
Proof. intros Hhit. unfold __call__. now rewrite Hhit. Qed.

(** A call changes nothing but the cache. *)
Lemma __call___fields (hl hl' : t) (text out : string) (cache : bool) :
  __call__ markup_found hl text cache = Some (out, hl') ->
  _pattern hl' = _pattern hl /\ prefix hl' = prefix hl.
Proof.
  unfold __call__. intros Hcall.
  destruct (if cache then _ else _) as [hit|].
  - now injection Hcall as _ <-.
  - destruct (Re.sub _ _ text) as [text'|]; [|discriminate].
    now injection Hcall as _ <-.
Qed.

Lemma uncached_fields (hl hl' : t) (text : string) :
  _pattern hl' = _pattern hl -> prefix hl' = prefix hl ->
  uncached markup_found hl' text = uncached markup_found hl text.
Proof. intros Hp Hx. now rewrite !uncached_sub, Hp, Hx. Qed.

Lemma cache_consistent_call (hl hl' : t) (text out : string) (cache : bool) :
  cache_consistent markup_found hl ->
  __call__ markup_found hl text cache = Some (out, hl') ->
  cache_consistent markup_found hl'
  /\ _highlight_cache hl' !! text = Some out.
Proof.
  intros Hcons Hcall.
  destruct (__call___fields hl hl' text out cache Hcall) as [Hp Hx].
  destruct cache; [destruct (_highlight_cache hl !! text) as [hit|] eqn:Hhit|].
  - rewrite (__call___hit hl text hit Hhit) in Hcall.
    injection Hcall as <- <-. auto.
  - rewrite __call___miss in Hcall by auto.
    destruct (uncached markup_found hl text) as [out'|] eqn:Hfresh;
      [|discriminate].
    injection Hcall as <- <-. simpl. split; [|apply lookup_insert_eq].
    intros key value Hkey.
    rewrite (uncached_fields hl _ key Hp Hx).
    simpl in Hkey. destruct (decide (text = key)) as [<-|Hne].
    + rewrite lookup_insert_eq in Hkey. congruence.
    + rewrite lookup_insert_ne in Hkey by exact Hne. now apply Hcons.
  - rewrite __call___miss in Hcall by auto.
    destruct (uncached markup_found hl text) as [out'|] eqn:Hfresh;
      [|discriminate].
    injection Hcall as <- <-. simpl. split; [|apply lookup_insert_eq].
    intros key value Hkey.
    rewrite (uncached_fields hl _ key Hp Hx).
    simpl in Hkey. destruct (decide (text = key)) as [<-|Hne].
    + rewrite lookup_insert_eq in Hkey. congruence.
    + rewrite lookup_insert_ne in Hkey by exact Hne. now apply Hcons.
Qed.

Lemma reachable_fields (hl0 hl : t) :
  reachable markup_found hl0 hl ->
  _pattern hl = _pattern hl0 /\ prefix hl = prefix hl0.
Proof.
  induction 1 as [|hl hl' text out cache _ [IHp IHx] Hcall]; [auto|].
  destruct (__call___fields hl hl' text out cache Hcall) as [Hp Hx].
  split; congruence.
Qed.

Lemma reachable_consistent (hl0 hl : t) :
  cache_consistent markup_found hl0 ->
  reachable markup_found hl0 hl ->
  cache_consistent markup_found hl.
Proof.
  intros Hstart. induction 1 as [|hl hl' text out cache _ IH Hcall]; [exact Hstart|].
  exact (proj1 (cache_consistent_call hl hl' text out cache IH Hcall)).
Qed.

Lemma reachable_trans (hl0 hl1 hl2 : t) :
  reachable markup_found hl0 hl1 ->
  reachable markup_found hl1 hl2 ->
  reachable markup_found hl0 hl2.
Proof.
  intros H01. induction 1 as [|hl hl' text out cache _ IH Hcall];
    [exact H01|].
  exact (reach_call markup_found hl0 hl hl' text out cache IH Hcall).
Qed.

(** An entry of the cache stays, with its value, through later calls. *)
Lemma reachable_keeps_entry (hl hl' : t) (key value : string) :
  cache_consistent markup_found hl ->
  _highlight_cache hl !! key = Some value ->
  reachable markup_found hl hl' ->
  _highlight_cache hl' !! key = Some value.
Proof.
  intros Hcons Hkey.
  induction 1 as [|hl1 hl2 text out cache Hreach IH Hcall]; [exact Hkey|].
  pose proof (reachable_consistent hl hl1 Hcons Hreach) as Hcons1.
  destruct cache; [destruct (_highlight_cache hl1 !! text) as [hit|] eqn:Hhit|].
  - rewrite (__call___hit hl1 text hit Hhit) in Hcall.
    now injection Hcall as _ <-.
  - rewrite __call___miss in Hcall by auto.
    destruct (uncached markup_found hl1 text) as [out'|]; [|discriminate].
    injection Hcall as _ <-. simpl.
    rewrite lookup_insert_ne; [exact IH|]. congruence.
  - rewrite __call___miss in Hcall by auto.
    destruct (uncached markup_found hl1 text) as [out'|] eqn:Hfresh;
      [|discriminate].
    injection Hcall as _ <-. simpl.
    destruct (decide (text = key)) as [->|Hne].
    + rewrite lookup_insert_eq. f_equal.
      pose proof (Hcons1 key value IH) as Hvalue. congruence.
    + now rewrite lookup_insert_ne.
Qed.

Lemma __post_init___fields (styles : list (string * string)) (pre : string)
  (hl0 : t) :
  __post_init__ styles pre = Some hl0 ->
  prefix hl0 = pre
  /\ _highlight_cache hl0 = ∅
  /\ Re.valid_names (map fst (Re.groupindex (_pattern hl0))) = true.
Proof.
  unfold __post_init__. intros Hinit.
  destruct (Re.compile (combined styles)) as [pattern|] eqn:Hcompile;
    [|discriminate].
  injection Hinit as <-. simpl.
  repeat split. exact (compile_valid_names _ _ Hcompile).
Qed.

(** With a prefix free of braces, the uncached computation returns. *)
Lemma uncached_returns (hl : t) (text : string) :
  brace_free (prefix hl) = true ->
  Re.valid_names (map fst (Re.groupindex (_pattern hl))) = true ->
  is_Some (uncached markup_found hl text).
Proof.
  intros Hprefix Hvalid. rewrite uncached_sub. unfold Re.sub.
  apply sub_go_returns. intros matched c Hc.
  apply _insert_style_returns.
  - exact Hprefix.
  - intros name Hname.
    exact (to_match_name_brace_free _ matched c name Hvalid Hname).
  - now apply to_match_named_last.
Qed.

End Cache.

(** C8. Take a highlighter built with a prefix free of braces and reached
    by any calls. Every entry of its cache is what an uncached call on the
    key returns. Every call on it returns; a call that does not look into
    the cache, or does not find its text there, returns what the uncached
    computation gives and stores it under the text it was given; the cache
    after the call is again made of uncached results; and from then on, after
    whatever further calls, a call with [cache=True] on that text returns
    the same string and leaves the highlighter as it is. *)
Theorem cache_holds_uncached_results (markup_found : string -> bool)
  (styles : list (string * string)) (pre : string) (hl0 hl : t)
  (text : string) (cache : bool) :
  brace_free pre = true ->
  __post_init__ styles pre = Some hl0 ->
  reachable markup_found hl0 hl ->
  cache_consistent markup_found hl
  /\ exists (out : string) (hl' : t),
       __call__ markup_found hl text cache = Some (out, hl')
       /\ (cache = false \/ _highlight_cache hl !! text = None ->
           uncached markup_found hl text = Some out
           /\ _highlight_cache hl'
              = <[text := out]> (_highlight_cache hl))
       /\ cache_consistent markup_found hl'
       /\ forall hl'' : t,
            reachable markup_found hl' hl'' ->
            __call__ markup_found hl'' text true = Some (out, hl'').
Proof.
  intros Hfree Hinit Hreach.
  destruct (__post_init___fields styles pre hl0 Hinit) as (Hpre & Hempty & Hvalid).
  destruct (reachable_fields markup_found hl0 hl Hreach) as [Hp Hx].
  assert (Hcons0 : cache_consistent markup_found hl0).
  { intros key value Hkey. rewrite Hempty in Hkey. discriminate Hkey. }
  pose proof (reachable_consistent markup_found hl0 hl Hcons0 Hreach) as Hcons.
  split; [exact Hcons|].
  destruct (uncached_returns markup_found hl text) as [fresh Hfresh].
  { now rewrite Hx, Hpre. }
  { now rewrite Hp. }
  assert (Hcall : exists out hl',
    __call__ markup_found hl text cache = Some (out, hl')
    /\ (cache = false \/ _highlight_cache hl !! text = None ->
        uncached markup_found hl text = Some out
        /\ _highlight_cache hl' = <[text := out]> (_highlight_cache hl))).
  { destruct cache;
      [destruct (_highlight_cache hl !! text) as [hit|] eqn:Hhit|].
    - exists hit, hl. split; [now apply __call___hit|].
      intros [Hfalse|Hnone]; discriminate.
    - eexists _, _. rewrite __call___miss, Hfresh by auto. simpl.
      split; [reflexivity|]. intros _. split; reflexivity.
    - eexists _, _. rewrite __call___miss, Hfresh by auto. simpl.
      split; [reflexivity|]. intros _. split; reflexivity. }
  destruct Hcall as (out & hl' & Hcall & Hmiss).
  destruct (cache_consistent_call markup_found hl hl' text out cache Hcons Hcall)
    as [Hcons' Hstored].
  exists out, hl'. repeat split; try assumption; try (now apply Hmiss).
  intros hl'' Hlater. apply __call___hit.
  exact (reachable_keeps_entry markup_found hl' hl'' text out Hcons' Hstored Hlater).
Qed.

Lemma cache_holds_uncached_results_witness :
  brace_free "x." = true
  /\ __post_init__ [("num", "\d+"); ("word", "[a-z]+")] "x." = Some scenario_hl
  /\ reachable closed_tag_found scenario_hl scenario_hl
  /\ cache_consistent closed_tag_found scenario_hl
  /\ exists (out : string) (hl' : t),
       __call__ closed_tag_found scenario_hl "ab12" false = Some (out, hl')
       /\ (false = false \/ _highlight_cache scenario_hl !! "ab12" = None ->
           uncached closed_tag_found scenario_hl "ab12" = Some out
           /\ _highlight_cache hl'
              = <["ab12" := out]> (_highlight_cache scenario_hl))
       /\ cache_consistent closed_tag_found hl'
       /\ forall hl'' : t,
            reachable closed_tag_found hl' hl'' ->
            __call__ closed_tag_found hl'' "ab12" true = Some (out, hl'').
Proof.
  split; [reflexivity|]. split; [reflexivity|].
  split; [apply reach_start|].
  apply (cache_holds_uncached_results closed_tag_found
           [("num", "\d+"); ("word", "[a-z]+")] "x." scenario_hl scenario_hl
           "ab12" false).
  - reflexivity.
  - reflexivity.
  - apply reach_start.
Defined.

(** * Further properties *)

(** ** The order of the color systems *)

(** X1. The four comparisons of [ColorSystem] are those of one total order,
    in which NO_COLOR is below STANDARD, STANDARD below EIGHT_BIT and
    EIGHT_BIT below TRUE. *)
Theorem colorsystem_comparisons_total_order (a b c : ColorSystem) :
  ColorSystemOps.ge a b = ColorSystemOps.le b a
  /\ ColorSystemOps.gt a b = ColorSystemOps.lt b a
  /\ ColorSystemOps.lt a b = negb (ColorSystemOps.ge a b)
  /\ ColorSystemOps.le a b = negb (ColorSystemOps.gt a b)
  /\ ColorSystemOps.le a b || ColorSystemOps.le b a = true
  /\ (if ColorSystemOps.le a b && ColorSystemOps.le b a
      then a = b else a <> b)
  /\ (if ColorSystemOps.le a b && ColorSystemOps.le b c
      then ColorSystemOps.le a c = true else True)
  /\ ColorSystemOps.lt NO_COLOR STANDARD
     && ColorSystemOps.lt STANDARD EIGHT_BIT
     && ColorSystemOps.lt EIGHT_BIT TRUE = true.
Proof.
  repeat split; destruct a, b; try destruct c; simpl;
    first [reflexivity | discriminate | exact I].
Qed.

(** ** The elapsed times of a recording *)


(** ** The memo of the color system *)

(** X2. Whatever the memo holds, a read of [colorsystem] after an
    assignment to [forced_colorsystem] follows the value assigned and the
    environment of the moment; the assignment itself changes nothing but
    the override and the memo. *)
Theorem forced_colorsystem_assignment_refreshes (new : option ColorSystem)
  (w : World) :
  fst ((set_forced_colorsystem new ;; colorsystem) w)
  = Ok (colorsystem_policy new (environ w !! "NO_COLOR")
          (lower (strip (color_term_of w))))
  /\ snd (set_forced_colorsystem new w)
     = with_terminal (with_slot None (with_forced new (terminal w))) w.
Proof.
  unfold bind at 1.
  assert (Hset : set_forced_colorsystem new w
                 = (Ok tt,
                    with_terminal
                      (with_slot None (with_forced new (terminal w))) w)).
  { unfold set_forced_colorsystem. unfold bind at 1. simpl.
    set (w1 := with_terminal (with_forced new (terminal w)) w).
    unfold bind at 1.
    destruct (colorsystem_slot (terminal w1)) as [c|] eqn:Hslot.
    - rewrite (colorsystem_memoized w1 c Hslot). reflexivity.
    - rewrite (colorsystem_empty_slot w1 Hslot). reflexivity. }
  rewrite Hset. split; [|reflexivity].
  rewrite colorsystem_empty_slot by reflexivity. reflexivity.
Qed.

(** ** What a write does *)

Lemma join_splitlines_go (s : string) :
  forall (cur : string) (after_cr : bool),
    join "" (splitlines_go cur after_cr s) = cur ++ without_linebreaks s.
Proof.
  induction s as [|c s IH]; intros cur after_cr.
  - simpl. rewrite append_empty_r.
    destruct (String.eqb_spec cur "") as [->|Hcur]; reflexivity.
  - simpl splitlines_go. simpl without_linebreaks.
    destruct (after_cr && (code c =? 10)%N) eqn:Hcrlf.
    + rewrite IH.
      apply andb_true_iff in Hcrlf as [_ Hlf]. apply N.eqb_eq in Hlf.
      assert (Hbreak : islinebreak c = true).
      { unfold islinebreak, between. rewrite Hlf. reflexivity. }
      now rewrite Hbreak.
    + destruct (islinebreak c).
      * rewrite join_empty_cons, IH. reflexivity.
      * rewrite IH, append_assoc. reflexivity.
Qed.

(** The text [write] measures is the data without its line boundaries. *)
Lemma join_splitlines (s : string) :
  join "" (splitlines s) = without_linebreaks s.
Proof. unfold splitlines. now rewrite join_splitlines_go. Qed.

Lemma count_cons (c : ascii) (s : string) :
  count LF (String c s) = ((if Ascii.eqb c "010" then 1 else 0) + count LF s)%Z.
Proof.
  unfold count.
  change (count_go LF 0 (String c s))
    with (if String.prefix LF (String c s)
          then (1 + count_go LF 0 s)%Z
          else count_go LF 0 s).
  unfold LF at 1. rewrite prefix_single.
  now destruct (Ascii.eqb c "010").
Qed.

Lemma count_append (a b : string) :
  count LF (a ++ b) = (count LF a + count LF b)%Z.
Proof.
  induction a as [|c a IH]; [reflexivity|].
  rewrite append_cons, !count_cons, IH. lia.
Qed.

Lemma count_digits (d : Decimal.uint) :
  count LF (NilEmpty.string_of_uint d) = 0%Z.
Proof.
  induction d; simpl NilEmpty.string_of_uint;
    [reflexivity|rewrite count_cons, IHd; reflexivity ..].
Qed.

Lemma count_str_of_int (n : Z) : count LF (str_of_int n) = 0%Z.
Proof.
  unfold str_of_int, NilZero.string_of_int, NilZero.string_of_uint.
  destruct (Z.to_int n) as [d|d].
  - destruct d; try reflexivity; apply count_digits.
  - rewrite count_cons. simpl.
    destruct d; try reflexivity; apply count_digits.
Qed.

(** The position put before the data has no line feed. *)
Lemma count_positioned (pos : option (Z * Z)) (data : string) :
  count LF (positioned pos data) = count LF data.
Proof.
  destruct pos as [[x y]|]; [|reflexivity].
  unfold positioned.
  rewrite !count_append, !count_str_of_int. reflexivity.
Qed.

Section WriteEffects.
Variable real_length : string -> Z.

Lemma write_world (data : string) (pos : option (Z * Z)) (flush : bool)
  (w : World) :
  write real_length data pos flush w
  = (Ok tt, after_write real_length data pos flush w).
Proof.
  unfold write, after_write, write_events, clear_stream, when, recorder_write,
    time, log, update_self, self, modify, bind, gets, ret.
  fold (positioned pos data).
  rewrite join_splitlines, count_positioned.
  destruct (contains (ESC ++ "[2J") data); simpl;
    destruct (_recorder (terminal w)) as [l|]; simpl;
    destruct flush; simpl; rewrite <- ?app_assoc; reflexivity.
Qed.

End WriteEffects.


(** A carriage return is taken out of the text that is measured and moves
    no row; a position leaves the cursor where the data put it. *)
Example write_cursor_cases :
  _cursor (terminal (snd (write (fun s => Z.of_nat (String.length s))
                            ("ab" ++ String "013" "" ++ LF ++ "c"
                             ++ String "013" "" ++ "d") None false
                            (initial_world ∅ false ""))))
  = (4, 1)%Z
  /\ _cursor (terminal (snd (write (fun _ => 0%Z) "x" (Some (7, 9)%Z) false
                               (initial_world ∅ false ""))))
     = (0, 0)%Z.
Proof. split; reflexivity. Qed.

(** ** Writes in a recording scope *)





Section Scope.
Variable real_length : string -> Z.



End Scope.



(** ** A recording replayed *)






(** ** Replay, part by part *)

Lemma last_cons_default {A} (l : list A) :
  forall a d : A, List.last (a :: l) d = List.last l a.
Proof.
  induction l as [|b l IH]; intros a d; [reflexivity|].
  change (List.last (a :: b :: l) d) with (List.last (b :: l) d).
  now rewrite !IH.
Qed.

Section ReplaySegment.
Variable real_length : string -> Z.

(** One round of the loop on a recorder that is not the active one: the
    recorder is left as it is. *)
Lemma after_round_detached (l : nat) (data : string) (delay last_time : Q)
  (w : World) :
  (Qlt_bool 0 last_time = true -> Qle_bool last_time delay = true) ->
  _recorder (terminal w) <> Some l ->
  events (after_round real_length data delay last_time w)
  = (events w
     ++ (if Qlt_bool 0 last_time then [sleep (delay - last_time)%Q] else [])
     ++ write_log data)%list
  /\ recorders (after_round real_length data delay last_time w) !! l
     = recorders w !! l
  /\ _recorder (terminal (after_round real_length data delay last_time w))
     = _recorder (terminal w).
Proof.
  intros Hle Hother. unfold after_round.
  rewrite (sleep_step _ _ _ Hle), write_world. simpl snd.
  unfold after_write, write_events, write_log. simpl.
  destruct (_recorder (terminal w)) as [l0|] eqn:Hrec; simpl.
  - split; [now rewrite <- !app_assoc|].
    split; [apply list_lookup_alter_ne; congruence|reflexivity].
  - split; [now rewrite <- !app_assoc|].
    split; reflexivity.
Qed.

(** The loop on a part [seg] of the entries whose elapsed times never go
    down: it goes through the part, logs its pauses and writes, and goes
    on after it. *)
Lemma replay_loop_segment (seg : list (string * Q)) :
  forall (pre post : list (string * Q)) (last_time : Q) (m l : nat)
    (w : World),
    recording_at l w = (pre ++ seg ++ post)%list ->
    _recorder (terminal w) <> Some l ->
    nondecreasing (map snd seg) = true ->
    (forall first, head (map snd seg) = Some first ->
       Qlt_bool 0 last_time = true -> Qle_bool last_time first = true) ->
    exists w',
      replay_loop real_length (length seg + m) l (length pre) last_time w
      = replay_loop real_length m l (length pre + length seg)
          (List.last (map snd seg) last_time) w'
      /\ events w' = (events w ++ replay_log last_time seg)%list
      /\ recording_at l w' = recording_at l w
      /\ _recorder (terminal w') = _recorder (terminal w).
Proof.
  induction seg as [|[data delay] seg IH];
    intros pre post last_time m l w Hrec Hother Hsorted Hfirst.
  - exists w. simpl. rewrite Nat.add_0_r, !app_nil_r.
    repeat split; reflexivity.
  - assert (Hle : Qlt_bool 0 last_time = true ->
                  Qle_bool last_time delay = true).
    { intros Hpos. now apply Hfirst. }
    destruct (after_round_detached l data delay last_time w Hle Hother)
      as (Hlog1 & Hstore1 & Hterm1).
    set (w1 := after_round real_length data delay last_time w) in *.
    assert (Hat1 : recording_at l w1 = recording_at l w).
    { unfold recording_at. now rewrite Hstore1. }
    destruct (IH (pre ++ [(data, delay)])%list post delay m l w1)
      as (w' & Hrun & Hlog & Hat & Hterm).
    + rewrite Hat1, Hrec. now rewrite <- app_assoc.
    + now rewrite Hterm1.
    + simpl in Hsorted. destruct (map snd seg); [reflexivity|].
      now apply andb_true_iff in Hsorted as [_ Hsorted].
    + intros first Hhead _. simpl in Hsorted.
      destruct (map snd seg) as [|b elapsed]; [discriminate|].
      injection Hhead as <-.
      now apply andb_true_iff in Hsorted as [Hb _].
    + exists w'.
      change (length ((data, delay) :: seg) + m)%nat
        with (S (length seg + m)).
      rewrite (replay_loop_round real_length l (length seg + m) (length pre)
                 last_time delay data w).
      * fold w1. rewrite length_app in Hrun. simpl length in Hrun.
        rewrite Nat.add_1_r in Hrun. rewrite Hrun.
        simpl length. simpl map. rewrite last_cons_default.
        replace (S (length pre) + length seg)%nat
          with (length pre + S (length seg))%nat by lia.
        split; [reflexivity|].
        split; [rewrite Hlog, Hlog1; simpl replay_log;
                now rewrite <- !app_assoc|].
        split; [now rewrite Hat, Hat1|].
        now rewrite Hterm, Hterm1.
      * rewrite Hrec. now apply list_lookup_middle.
      * exact Hle.
Qed.

End ReplaySegment.

Lemma pause_negative (a b : Q) :
  Qlt_bool b a = true -> Qlt_bool (b - a) 0 = true.
Proof.
  unfold Qlt_bool. intros Hlt. apply negb_true_iff in Hlt.
  apply negb_true_iff. destruct (Qle_bool 0 (b - a)) eqn:Hle; [|reflexivity].
  apply Qle_bool_iff in Hle. apply Qle_minus_iff in Hle.
  apply Qle_bool_iff in Hle. congruence.
Qed.

(** The loop at the end of the entries. *)
Lemma replay_loop_end (real_length : string -> Z) (m l i : nat)
  (last_time : Q) (w : World) :
  (length (recording_at l w) <= i)%nat ->
  replay_loop real_length (S m) l i last_time w = (Ok true, w).
Proof.
  intros Hend. simpl. unfold bind at 1. unfold gets at 1.
  rewrite replay_loop_reads, lookup_ge_None_2 by exact Hend. reflexivity.
Qed.

(** X6. A recorder that is not the active one, whose elapsed times go up
    to an entry with a positive time and then step back: [replay] writes
    the chunks up to that entry, with the pauses between them, and raises
    [ValueError] from [time.sleep] before the chunk of the step back, so
    that this chunk and those after it never reach the stream. *)
Theorem replay_stops_at_step_back (real_length : string -> Z)
  (fuel l : nat) (w : World) (pre post : list (string * Q))
  (d1 d2 : string) (a b : Q) :
  recording_at l w = (pre ++ (d1, a) :: (d2, b) :: post)%list ->
  _recorder (terminal w) <> Some l ->
  nondecreasing (map snd (pre ++ [(d1, a)])) = true ->
  Qlt_bool 0 a = true ->
  Qlt_bool b a = true ->
  (length pre + 1 < fuel)%nat ->
  exists w',
    replay real_length fuel l w
    = (Raise (ValueError "sleep length must be non-negative"), w')
    /\ chunks_written (events w')
       = (chunks_written (events w) ++ map fst pre ++ [d1])%list
    /\ slept (events w')
       = (slept (events w) ++ pauses (map snd (pre ++ [(d1, a)])))%list
    /\ recording_at l w' = recording_at l w.
Proof.
  intros Hrec Hother Hsorted Hpos Hback Hfuel.
  set (seg := (pre ++ [(d1, a)])%list) in *.
  assert (Hrec' : recording_at l w = ([] ++ seg ++ (d2, b) :: post)%list).
  { rewrite Hrec. unfold seg. now rewrite <- app_assoc. }
  assert (Hlen : length seg = (length pre + 1)%nat).
  { unfold seg. now rewrite length_app. }
  destruct (replay_loop_segment real_length seg [] ((d2, b) :: post) 0%Q
              (S (fuel - length seg - 1)) l w Hrec' Hother Hsorted)
    as (w' & Hrun & Hlog & Hat & _).
  { intros first _ Hzero. discriminate Hzero. }
  change (length (@nil (string * Q))) with 0%nat in Hrun.
  rewrite Nat.add_0_l in Hrun.
  exists w'. unfold replay.
  replace fuel with (length seg + S (fuel - length seg - 1))%nat at 1 by lia.
  rewrite Hrun.
  assert (Hlast : List.last (map snd seg) 0%Q = a).
  { unfold seg. rewrite map_app. simpl. apply last_last. }
  rewrite Hlast. simpl replay_loop. unfold bind at 1. unfold gets at 1.
  rewrite replay_loop_reads, Hat, Hrec'.
  change ([] ++ seg ++ (d2, b) :: post)%list
    with (seg ++ (d2, b) :: post)%list.
  rewrite list_lookup_middle by reflexivity.
  unfold bind at 1. unfold when. rewrite Hpos.
  unfold time_sleep. rewrite (pause_negative _ _ Hback). unfold raise.
  split; [reflexivity|].
  split; [|split; [|reflexivity]].
  - rewrite Hlog, chunks_written_app, chunks_written_replay_log.
    unfold seg. now rewrite map_app.
  - rewrite Hlog, slept_app, slept_replay_log, pauses_from_zero.
    reflexivity.
Qed.

Lemma replay_stops_at_step_back_witness :
  recording_at 0
    (world_with
       [Recorder.mk [("a", 1 # 1); ("b", 2 # 1); ("c", 1 # 2); ("d", 3 # 1)] 0])
  = ([("a", 1 # 1)] ++ ("b", 2 # 1) :: ("c", 1 # 2) :: [("d", 3 # 1)])%list
  /\ _recorder
       (terminal
          (world_with
             [Recorder.mk
                [("a", 1 # 1); ("b", 2 # 1); ("c", 1 # 2); ("d", 3 # 1)] 0]))
     <> Some 0%nat
  /\ exists w',
       replay (fun s => Z.of_nat (String.length s)) 5 0
         (world_with
            [Recorder.mk
               [("a", 1 # 1); ("b", 2 # 1); ("c", 1 # 2); ("d", 3 # 1)] 0])
       = (Raise (ValueError "sleep length must be non-negative"), w')
       /\ chunks_written (events w') = ["a"; "b"]
       /\ slept (events w') = [((2 # 1) - (1 # 1))%Q].
Proof.
  split; [reflexivity|]. split; [discriminate|].
  destruct (replay_stops_at_step_back (fun s => Z.of_nat (String.length s))
              5 0
              (world_with
                 [Recorder.mk
                    [("a", 1 # 1); ("b", 2 # 1); ("c", 1 # 2); ("d", 3 # 1)] 0])
              [("a", 1 # 1)] [("d", 3 # 1)] "b" "c" (2 # 1) (1 # 2)
              eq_refl ltac:(discriminate) eq_refl eq_refl eq_refl
              ltac:(simpl; lia))
    as (w' & Hrun & Hchunks & Hslept & _).
  exists w'. split; [exact Hrun|]. split; [exact Hchunks|exact Hslept].
Defined.

(** ** Listeners *)

Section Listeners.
Import TerminalEvents.
Context {callback : Type}.
Variable invoke : callback -> Z * Z -> M unit.






End Listeners.


(** In the order of subscription, on a table that has none yet. *)
Example subscribe_dispatch_sample :
  events
    (snd (TerminalEvents._call_listener bool sample_listener
            TerminalEvents.RESIZE (79, 23)%Z
            (subscribe_all TerminalEvents.RESIZE [false; false] ∅)
            (initial_world ∅ false "")))
  = [stdout_write "79x23"; stdout_write "79x23"]
  /\ TerminalEvents._call_listener bool sample_listener 7 (79, 23)%Z
       (subscribe_all TerminalEvents.RESIZE [false; false] ∅)
       (initial_world ∅ false "")
     = (Ok tt, initial_world ∅ false "").
Proof. split; reflexivity. Qed.

(** ** The resize handler *)




(** A listener that fails keeps the screen as it is. *)
Example _update_size_listener_fails :
  fst (TerminalEvents._update_size bool sample_listener
         (fun s => Z.of_nat (String.length s))
         (subscribe_all TerminalEvents.RESIZE [false; true] ∅)
         (initial_world ∅ false ""))
  = Raise IndexError
  /\ events
       (snd (TerminalEvents._update_size bool sample_listener
               (fun s => Z.of_nat (String.length s))
               (subscribe_all TerminalEvents.RESIZE [false; true] ∅)
               (initial_world ∅ false "")))
     = [stdout_write "79x23"].
Proof. split; reflexivity. Qed.

(** ** The combined pattern *)

Lemma rev_app_rev_app (s : string) :
  forall t u : string,
    String.rev_app (String.rev_app s t) u = String.rev_app t (s ++ u).
Proof.
  induction s as [|a s IH]; intros t u; [reflexivity|].
  simpl String.rev_app. rewrite IH. reflexivity.
Qed.

Lemma rev_app_append (s t : string) :
  forall acc : string,
    String.rev_app (s ++ t) acc = String.rev_app t (String.rev_app s acc).
Proof.
  induction s as [|a s IH]; intros acc; [reflexivity|].
  rewrite append_cons. simpl String.rev_app. apply IH.
Qed.

(** [rstrip("|")] of a text that ends with a closing parenthesis and one
    bar takes the bar off and nothing else. *)
Lemma rstrip_bar (x : string) : rstrip "|" ((x ++ ")") ++ "|") = x ++ ")".
Proof.
  unfold rstrip, rstrip_by, String.rev.
  rewrite !rev_app_append. simpl String.rev_app. simpl lstrip_by.
  rewrite rev_app_rev_app. reflexivity.
Qed.

Lemma fold_left_pieces (styles : list (string * string)) :
  forall acc : string,
    fold_left
      (fun pattern '(name, ptrn) =>
         pattern ++ "(?P<" ++ name ++ ">" ++ ptrn ++ ")|")
      styles acc
    = acc ++ join "" (map (fun style => group_source style ++ "|") styles).
Proof.
  induction styles as [|[name ptrn] styles IH]; intros acc.
  - simpl. now rewrite append_empty_r.
  - simpl fold_left. rewrite IH. simpl map. rewrite join_empty_cons.
    unfold group_source. simpl fst. simpl snd.
    now rewrite !append_assoc.
Qed.

Lemma join_bar_cons (x y : string) (l : list string) :
  join "|" (x :: y :: l) = x ++ "|" ++ join "|" (y :: l).
Proof. reflexivity. Qed.

Lemma pieces_join (styles : list (string * string)) :
  styles <> [] ->
  join "" (map (fun style => group_source style ++ "|") styles)
  = join "|" (map group_source styles) ++ "|".
Proof.
  induction styles as [|style styles IH]; intros Hstyles; [congruence|].
  destruct styles as [|style' styles].
  - simpl map. rewrite join_empty_cons. simpl. now rewrite append_empty_r.
  - change (map (fun style0 => group_source style0 ++ "|")
              (style :: style' :: styles))
      with ((group_source style ++ "|")
            :: map (fun style0 => group_source style0 ++ "|")
                 (style' :: styles)).
    rewrite join_empty_cons, IH by discriminate.
    change (map group_source (style :: style' :: styles))
      with (group_source style :: group_source style'
            :: map group_source styles).
    rewrite join_bar_cons. simpl map.
    now rewrite !append_assoc.
Qed.

Lemma join_groups_end (styles : list (string * string)) :
  styles <> [] ->
  exists x, join "|" (map group_source styles) = x ++ ")".
Proof.
  induction styles as [|[name ptrn] styles IH]; intros Hstyles; [congruence|].
  destruct styles as [|style' styles].
  - exists ("(?P<" ++ name ++ ">" ++ ptrn). simpl. unfold group_source. simpl.
    now rewrite !append_assoc.
  - destruct (IH ltac:(discriminate)) as [x Hx].
    change (map group_source ((name, ptrn) :: style' :: styles))
      with (group_source (name, ptrn) :: group_source style'
            :: map group_source styles).
    rewrite join_bar_cons.
    change (group_source style' :: map group_source styles)
      with (map group_source (style' :: styles)).
    rewrite Hx. exists (group_source (name, ptrn) ++ "|" ++ x).
    now rewrite !append_assoc.
Qed.

(** X9. The source of the pattern [__post_init__] compiles is the named
    groups of the styles, one for each style and in the order of the
    styles, with a bar between two of them and none at the end: the
    [rstrip] takes off the bar added after the last group and nothing of
    a pattern. Without any style the source is empty. *)
Theorem combined_joins_groups (styles : list (string * string)) :
  combined styles = join "|" (map group_source styles).
Proof.
  unfold combined. rewrite fold_left_pieces.
  destruct styles as [|style styles]; [reflexivity|].
  rewrite pieces_join by discriminate.
  destruct (join_groups_end (style :: styles)) as [x Hx]; [discriminate|].
  change ("" ++ join "|" (map group_source (style :: styles)) ++ "|")
    with (join "|" (map group_source (style :: styles)) ++ "|").
  rewrite Hx. apply rstrip_bar.
Qed.

(** A pattern that ends with a bar keeps it. *)
Example combined_keeps_inner_bars :
  combined [("a", "x|"); ("b", "y||")] = "(?P<a>x|)|(?P<b>y||)".
Proof. reflexivity. Qed.

(** ** Highlighters without a style *)

Lemma sub_go_empty_pattern (repl : Re.Match -> option string) (mark : string)
  (s : list ascii) :
  repl (Re.mkMatch "" ∅ None) = Some mark ->
  Re.sub_go (Re.mkPattern Re.Empty [] 0) repl 0 s
  = Some (marked_everywhere mark (string_of_list_ascii s)).
Proof.
  intros Hrepl. induction s as [|a s IH].
  - simpl. unfold Re.replaced. simpl. exact Hrepl.
  - simpl Re.sub_go. unfold Re.match_here. simpl Re.run.
    rewrite Nat.ltb_irrefl, Nat.eqb_refl. simpl andb. cbv iota.
    unfold Re.replaced. rewrite Nat.sub_diag. simpl take.
    change (Re.to_match (Re.mkPattern Re.Empty [] 0) [] Re.no_captures)
      with (Re.mkMatch "" ∅ None).
    rewrite Hrepl, IH. reflexivity.
Qed.

(** X10. A highlighter built without any style has the empty pattern,
    which matches at every position of a text: called on a text, it puts
    a markup whose name and content are both [None], after the prefix,
    before each character and at the end, and keeps the characters as
    they are. *)
Theorem no_styles_marks_every_position (markup_found : string -> bool)
  (pre text : string) :
  brace_free pre = true ->
  exists hl,
    __post_init__ [] pre = Some hl
    /\ uncached markup_found hl text
       = Some (marked_everywhere (tagged (pre ++ "None") "None") text).
Proof.
  intros Hfree. eexists. split; [reflexivity|].
  rewrite uncached_sub. unfold Re.sub. simpl _pattern. simpl prefix.
  rewrite (sub_go_empty_pattern _ (tagged (pre ++ "None") "None")).
  - now rewrite string_of_list_ascii_of_string.
  - unfold _insert_style. simpl.
    apply format_style. rewrite brace_free_app, Hfree. reflexivity.
Qed.

Lemma no_styles_marks_every_position_witness :
  brace_free "x." = true
  /\ exists hl,
       __post_init__ [] "x." = Some hl
       /\ uncached (fun _ => false) hl "ab"
          = Some "[x.None]None[/x.None]a[x.None]None[/x.None]b[x.None]None[/x.None]".
Proof.
  split; [reflexivity|].
  destruct (no_styles_marks_every_position (fun _ => false) "x." "ab" eq_refl)
    as (hl & Hinit & Hcall).
  exists hl. split; [exact Hinit|]. exact Hcall.
Defined.
